(** * Gatekeeper manager entry point ([cmd/manager/main.go])

    A shallow embedding of [main] and [setLoggerForProduction].

    - The body of [main] is written once, as a program ([Prog]) over the
      calls it makes to its collaborators (controller-runtime, the OPA
      constraint framework, zap) and the operations of the Go runtime it uses.
    - What a collaborator answers is supplied by a [World]; every call is
      taken to return, [mgr.Start] included.
    - Goroutines started with [go], channels created with [make], the
      blocking receive and [os.Exit] have a small-step interleaving semantics
      ([step]), so that statements range over every schedule ([reachable],
      [Inevitably]).  A state carries the history of events so far.
    - The properties of [main] come last: each is first established for the
      events of the main goroutine in program order ([coord_trace]), by a case
      split on the errors [main] tests, and then carried over to the histories
      of the process. *)

From stdpp Require Import base option list relations gmap strings.
From Stdlib Require Import ZArith Lia.

Open Scope string_scope.
Open Scope nat_scope.
Open Scope list_scope.

(** ** Go values *)

(** A value of Go's [error] interface: [None] is [nil]. *)
Definition error : Type := option string.

(** Handles returned by collaborators.  They are opaque to [main]; the model
    keeps them apart by type and identifies each by an address. *)
Inductive RestConfig := RestConfigAt (addr : nat).      (* *rest.Config *)
Inductive Manager := ManagerAt (addr : nat).            (* manager.Manager *)
Inductive Scheme := SchemeAt (addr : nat).              (* *runtime.Scheme *)
Inductive Driver := DriverAt (addr : nat).              (* drivers.Driver *)
Inductive Backend := BackendAt (addr : nat).            (* *opa.Backend *)
Inductive OpaClient := OpaClientAt (addr : nat).        (* opa.Client *)
Inductive Context := ContextAt (addr : nat).            (* context.Context *)
Inductive CancelFunc := CancelFuncAt (addr : nat).      (* context.CancelFunc *)
Inductive WatchManager := WatchManagerAt (addr : nat).  (* *watch.WatchManager *)
Inductive StopCh := StopChAt (addr : nat).              (* <-chan struct{} *)
Inductive K8sClient := K8sClientAt (addr : nat).        (* k8sCli.Client *)

(** A [chan struct{}] made by [make]; channels are numbered in allocation
    order. *)
Definition Chan : Type := nat.

(** [time.Duration] counts nanoseconds. *)
Definition Duration : Type := Z.
Definition time_Second : Duration := 1000000000%Z.

(** ** Logger configuration (zap) *)

Inductive ZapLevel :=
| DebugLevel | InfoLevel | WarnLevel | ErrorLevel | DPanicLevel | PanicLevel | FatalLevel.

Inductive Sink := Stderr.

Inductive ZapEncoder :=
| NewJSONEncoder_Production       (* zapcore.NewJSONEncoder(zap.NewProductionEncoderConfig()) *)
| NewConsoleEncoder_Development.

Inductive ZapOption :=
| Development                     (* zap.Development() *)
| AddStacktrace (lvl : ZapLevel)
| WrapCore_NewSampler (tick : Duration) (first thereafter : Z)
| AddCallerSkip (skip : Z)
| ErrorOutput (w : Sink).

(** The [*zap.Logger] built by [zap.New(zapcore.NewCore(enc, sink, lvl))] and
    then extended [WithOptions]. *)
Record ZapLogger := {
  zl_encoder : ZapEncoder;          (* Encoder of the logf.KubeAwareEncoder *)
  zl_verbose : bool;                (* Verbose of the logf.KubeAwareEncoder *)
  zl_sink : Sink;
  zl_level : ZapLevel;              (* zap.NewAtomicLevelAt *)
  zl_options : list ZapOption
}.

(** A [logr.Logger], as [main] obtains it: from [logf.ZapLogger] or from
    [zapr.NewLogger]. *)
Inductive Logger :=
| logf_ZapLogger (development : bool)
| zapr_NewLogger (zlog : ZapLogger).

(** [logf.ZapLogger] is not part of this repository: it belongs to
    controller-runtime ([sigs.k8s.io/controller-runtime/pkg/runtime/log]),
    where [ZapLogger(development)] is [ZapLoggerTo(os.Stderr, development)].
    [ZapLoggerTo] is the function [setLoggerForProduction] is a variant of;
    its body is transcribed here from that package, to tell how the logger
    that [main] installs is configured:
    - development: console encoder with the development encoder
      configuration, threshold [DebugLevel], [zap.Development()] and stack
      traces from [ErrorLevel];
    - otherwise: JSON encoder with the production encoder configuration,
      threshold [InfoLevel], stack traces from [WarnLevel] and the sampler of
      100 first and 100 thereafter per second;
    - in both cases [zap.AddCallerSkip(1)], [zap.ErrorOutput(sink)] and a
      [KubeAwareEncoder] whose [Verbose] is [development]. *)
Definition ZapLoggerTo (destWriter : Sink) (development : bool) : ZapLogger :=
  let sink := destWriter in
  let enc := if development then NewConsoleEncoder_Development
             else NewJSONEncoder_Production in
  let lvl := if development then DebugLevel else InfoLevel in
  let opts : list ZapOption :=
    if development then [Development; AddStacktrace ErrorLevel]
    else [AddStacktrace WarnLevel; WrapCore_NewSampler time_Second 100 100] in
  let opts := opts ++ [AddCallerSkip 1; ErrorOutput sink] in
  {| zl_encoder := enc; zl_verbose := development; zl_sink := sink;
     zl_level := lvl; zl_options := opts |}.

(** The zap logger behind a [logr.Logger]. *)
Definition logger_zap (l : Logger) : ZapLogger :=
  match l with
  | logf_ZapLogger development => ZapLoggerTo Stderr development
  | zapr_NewLogger zlog => zlog
  end.

(** The two formats of log records: the console encoder writes lines for a
    human reader, the JSON encoder one machine-parseable object per record. *)
Inductive Format := HumanReadable | Structured.

Definition encoder_format (enc : ZapEncoder) : Format :=
  match enc with
  | NewConsoleEncoder_Development => HumanReadable
  | NewJSONEncoder_Production => Structured
  end.

Definition logger_format (l : Logger) : Format := encoder_format (zl_encoder (logger_zap l)).

(** The sampler of a logger: the records let through first and thereafter
    in each tick, if it samples at all. *)
Fixpoint sampler_of (opts : list ZapOption) : option (Duration * Z * Z) :=
  match opts with
  | [] => None
  | WrapCore_NewSampler tick first thereafter :: _ => Some (tick, first, thereafter)
  | _ :: opts' => sampler_of opts'
  end.

(** The least level at which a logger attaches stack traces. *)
Fixpoint stacktrace_of (opts : list ZapOption) : option ZapLevel :=
  match opts with
  | [] => None
  | AddStacktrace lvl :: _ => Some lvl
  | _ :: opts' => stacktrace_of opts'
  end.

(** ** The two finalizer cleanup routines started as goroutines *)

Inductive Worker :=
| RemoveAllConfigFinalizers       (* configController.RemoveAllConfigFinalizers *)
| RemoveAllFinalizers.            (* constrainttemplate.RemoveAllFinalizers *)

(** ** Calls to collaborators *)

(** [Eff X] is a call whose result has type [X].  Go's [(value, error)] results
    are pairs: both components are returned whatever the error is. *)
Inductive Eff : Type -> Type :=
| LogfSetLogger (l : Logger) : Eff unit
| LogInfo (name msg : string) : Eff unit
| LogError (name : string) (err : string) (msg : string) : Eff unit
| ConfigGetConfig : Eff (RestConfig * error)
| ManagerNew (cfg : RestConfig) : Eff (Manager * error)
| MgrGetScheme (mgr : Manager) : Eff Scheme
| ApisAddToScheme (s : Scheme) : Eff error
| LocalNew (tracing : bool) : Eff Driver
| OpaNewBackend (d : Driver) : Eff (Backend * error)
| BackendNewClient (b : Backend) : Eff (OpaClient * error)
| ContextWithCancel : Eff (Context * CancelFunc)
| MgrGetConfig (mgr : Manager) : Eff RestConfig
| WatchNew (ctx : Context) (cfg : RestConfig) : Eff WatchManager
| ControllerAddToManager (mgr : Manager) (client : OpaClient) (wm : WatchManager) : Eff error
| WebhookAddToManager (mgr : Manager) (client : OpaClient) : Eff error
| AuditAddToManager (mgr : Manager) (client : OpaClient) : Eff error
| UpgradeAddToManager (mgr : Manager) : Eff error
| SignalsSetupSignalHandler : Eff StopCh
| MgrStart (mgr : Manager) (stop : StopCh) : Eff error
| CallCancel (cancel : CancelFunc) : Eff unit
| TimeSleep (d : Duration) : Eff unit
| K8sCliNew (cfg : RestConfig) : Eff (K8sClient * error).

(** ** Programs *)

(** A Go function body as a tree of the operations it performs.  [Call] is a
    call to a collaborator; the other nodes are the Go runtime operations used
    by [main]. *)
Inductive Prog (A : Type) : Type :=
| Ret (a : A)
| Call {X : Type} (c : Eff X) (k : X -> Prog A)
| MakeChan (k : Chan -> Prog A)                                   (* make(chan struct{}) *)
| Go (w : Worker) (cli : K8sClient) (done : Chan) (k : Prog A)    (* go w(cli, done) *)
| Recv (c : Chan) (k : Prog A)                                    (* <-c *)
| Exit (code : Z).                                                (* os.Exit(code) *)

Arguments Ret {A} a.
Arguments Call {A X} c k.
Arguments MakeChan {A} k.
Arguments Go {A} w cli done k.
Arguments Recv {A} c k.
Arguments Exit {A} code.

Fixpoint bind {A B : Type} (p : Prog A) (f : A -> Prog B) : Prog B :=
  match p with
  | Ret a => f a
  | Call c k => Call c (fun x => bind (k x) f)
  | MakeChan k => MakeChan (fun c => bind (k c) f)
  | Go w cli d k => Go w cli d (bind k f)
  | Recv c k => Recv c (bind k f)
  | Exit code => Exit code
  end.

Declare Scope prog_scope.
Delimit Scope prog_scope with prog.
Bind Scope prog_scope with Prog.
Notation "x ← y ; z" := (bind y (fun x => z))
  (at level 20, y at level 100, z at level 200, only parsing) : prog_scope.
Notation "' x ← y ; z" := (bind y (fun x => z))
  (at level 20, x pattern, y at level 100, z at level 200, only parsing) : prog_scope.
Notation "x ;; z" := (bind x (fun _ => z))
  (at level 100, z at level 200, only parsing, right associativity) : prog_scope.
Open Scope prog_scope.

Definition call {X : Type} (c : Eff X) : Prog X := Call c Ret.
Definition make_chan : Prog Chan := MakeChan Ret.
Definition go (w : Worker) (cli : K8sClient) (done : Chan) : Prog unit := Go w cli done (Ret tt).
Definition recv (c : Chan) : Prog unit := Recv c (Ret tt).
Definition os_Exit {A : Type} (code : Z) : Prog A := Exit code.

(** [if err != nil { body }] *)
Definition if_err (err : error) (body : string -> Prog unit) : Prog unit :=
  match err with
  | Some e => body e
  | None => Ret tt
  end.

(** ** The source *)

(** [log := logf.Log.WithName("entrypoint")] *)
Definition log_Info (msg : string) : Prog unit := call (LogInfo "entrypoint" msg).
Definition log_Error (err : string) (msg : string) : Prog unit :=
  call (LogError "entrypoint" err msg).

Definition setLoggerForProduction : Prog unit :=
  let sink := Stderr in
  let opts : list ZapOption := [] in
  let enc := NewJSONEncoder_Production in
  let lvl := WarnLevel in
  let opts := opts ++ [AddStacktrace ErrorLevel;
                       WrapCore_NewSampler time_Second 100 100] in
  let opts := opts ++ [AddCallerSkip 1; ErrorOutput sink] in
  let zlog := {| zl_encoder := enc; zl_verbose := false; zl_sink := sink;
                 zl_level := lvl; zl_options := [] |} in
  let zlog := {| zl_encoder := zl_encoder zlog; zl_verbose := zl_verbose zlog;
                 zl_sink := zl_sink zlog; zl_level := zl_level zlog;
                 zl_options := zl_options zlog ++ opts |} in
  let newlogger := zapr_NewLogger zlog in
  call (LogfSetLogger newlogger).

(** The [switch *logLevel] at the head of [main]. *)
Definition setLogger (logLevel : string) : Prog unit :=
  if String.eqb logLevel "DEBUG" then
    call (LogfSetLogger (logf_ZapLogger true))
  else if String.eqb logLevel "WARNING" || String.eqb logLevel "ERROR" then
    setLoggerForProduction
  else if String.eqb logLevel "INFO" then
    call (LogfSetLogger (logf_ZapLogger false))      (* fallthrough *)
  else
    call (LogfSetLogger (logf_ZapLogger false)).

(** Modelled from the spec: the format the specification assigns to each
    value of the flag, human-readable for DEBUG, INFO and unrecognised
    values, structured for WARNING and ERROR. *)
Definition spec_format (logLevel : string) : Format :=
  if String.eqb logLevel "WARNING" || String.eqb logLevel "ERROR" then Structured
  else HumanReadable.

(** [main], with the parsed value of the [-log-level] flag as its input. *)
Definition main (logLevel : string) : Prog unit :=
  setLogger logLevel ;;
  log_Info "setting up client for manager" ;;
  '(cfg, err) ← call ConfigGetConfig ;
  if_err err (fun e =>
    log_Error e "unable to set up client config" ;;
    os_Exit 1) ;;
  log_Info "setting up manager" ;;
  '(mgr, err) ← call (ManagerNew cfg) ;
  if_err err (fun e =>
    log_Error e "unable to set up overall controller manager" ;;
    os_Exit 1) ;;
  log_Info "Registering Components." ;;
  log_Info "setting up scheme" ;;
  scheme ← call (MgrGetScheme mgr) ;
  err ← call (ApisAddToScheme scheme) ;
  if_err err (fun e =>
    log_Error e "unable add APIs to scheme" ;;
    os_Exit 1) ;;
  driver ← call (LocalNew false) ;
  '(backend, err) ← call (OpaNewBackend driver) ;
  if_err err (fun e =>
    log_Error e "unable to set up OPA backend" ;;
    os_Exit 1) ;;
  '(client, err) ← call (BackendNewClient backend) ;
  if_err err (fun e =>
    log_Error e "unable to set up OPA client") ;;
  '(wmCtx, wmCancel) ← call ContextWithCancel ;
  mgrCfg ← call (MgrGetConfig mgr) ;
  wm ← call (WatchNew wmCtx mgrCfg) ;
  log_Info "Setting up controller" ;;
  err ← call (ControllerAddToManager mgr client wm) ;
  if_err err (fun e =>
    log_Error e "unable to register controllers to the manager" ;;
    os_Exit 1) ;;
  log_Info "setting up webhooks" ;;
  err ← call (WebhookAddToManager mgr client) ;
  if_err err (fun e =>
    log_Error e "unable to register webhooks to the manager" ;;
    os_Exit 1) ;;
  log_Info "setting up audit" ;;
  err ← call (AuditAddToManager mgr client) ;
  if_err err (fun e =>
    log_Error e "unable to register audit to the manager" ;;
    os_Exit 1) ;;
  log_Info "setting up upgrade" ;;
  err ← call (UpgradeAddToManager mgr) ;
  if_err err (fun e =>
    log_Error e "unable to register upgrade to the manager" ;;
    os_Exit 1) ;;
  log_Info "Starting the Cmd." ;;
  let hadError := false in
  stop ← call SignalsSetupSignalHandler ;
  err ← call (MgrStart mgr stop) ;
  hadError ← match err with
             | Some e => log_Error e "unable to run the manager" ;; Ret true
             | None => Ret hadError
             end ;
  call (CallCancel wmCancel) ;;
  call (TimeSleep (5 * time_Second)%Z) ;;
  log_Info "removing finalizers..." ;;
  mgrCfg ← call (MgrGetConfig mgr) ;
  '(cli, err) ← call (K8sCliNew mgrCfg) ;
  if_err err (fun e =>
    log_Error e "unable to create cleanup client" ;;
    os_Exit 1) ;;
  syncCleaned ← make_chan ;
  go RemoveAllConfigFinalizers cli syncCleaned ;;
  templatesCleaned ← make_chan ;
  go RemoveAllFinalizers cli templatesCleaned ;;
  recv syncCleaned ;;
  recv templatesCleaned ;;
  log_Info "finalizers removed" ;;
  if hadError : bool then os_Exit 1 else Ret tt.

(** ** The world: what the collaborators answer *)

(** Every call of [main] happens at most once on a path ([mgr.GetConfig] twice,
    an accessor), so a world fixes one answer per call.  [w_work] is the number
    of internal steps a cleanup routine takes before it signals. *)
Record World := {
  w_getConfig : RestConfig * error;              (* config.GetConfig() *)
  w_managerNew : Manager * error;                (* manager.New(cfg, manager.Options{}) *)
  w_scheme : Scheme;                             (* mgr.GetScheme() *)
  w_addToScheme : error;                         (* apis.AddToScheme *)
  w_driver : Driver;                             (* local.New(local.Tracing(false)) *)
  w_newBackend : Backend * error;                (* opa.NewBackend(opa.Driver(driver)) *)
  w_newClient : OpaClient * error;               (* backend.NewClient(opa.Targets(...)) *)
  w_withCancel : Context * CancelFunc;           (* context.WithCancel(context.Background()) *)
  w_mgrConfig : RestConfig;                      (* mgr.GetConfig() *)
  w_watchNew : WatchManager;                     (* watch.New *)
  w_controller : error;                          (* controller.AddToManager *)
  w_webhook : error;                             (* webhook.AddToManager *)
  w_audit : error;                               (* audit.AddToManager *)
  w_upgrade : error;                             (* upgrade.AddToManager *)
  w_signalHandler : StopCh;                      (* signals.SetupSignalHandler() *)
  w_mgrStart : error;                            (* mgr.Start, once it returns *)
  w_k8sCliNew : K8sClient * error;               (* k8sCli.New *)
  w_work : Worker -> nat
}.

Definition answer (w : World) {X : Type} (c : Eff X) : X :=
  match c in Eff X return X with
  | LogfSetLogger _ => tt
  | LogInfo _ _ => tt
  | LogError _ _ _ => tt
  | ConfigGetConfig => w_getConfig w
  | ManagerNew _ => w_managerNew w
  | MgrGetScheme _ => w_scheme w
  | ApisAddToScheme _ => w_addToScheme w
  | LocalNew _ => w_driver w
  | OpaNewBackend _ => w_newBackend w
  | BackendNewClient _ => w_newClient w
  | ContextWithCancel => w_withCancel w
  | MgrGetConfig _ => w_mgrConfig w
  | WatchNew _ _ => w_watchNew w
  | ControllerAddToManager _ _ _ => w_controller w
  | WebhookAddToManager _ _ => w_webhook w
  | AuditAddToManager _ _ => w_audit w
  | UpgradeAddToManager _ => w_upgrade w
  | SignalsSetupSignalHandler => w_signalHandler w
  | MgrStart _ _ => w_mgrStart w
  | CallCancel _ => tt
  | TimeSleep _ => tt
  | K8sCliNew _ => w_k8sCliNew w
  end.

(** ** Events and process states *)

(** What an observer of the process records.  [EvCall c x] is recorded when the
    call [c] returns [x] (for [MgrStart]: when the blocking run call returns;
    for [TimeSleep d]: when the delay [d] has elapsed).  [EvExit] is the end of
    the process, by [os.Exit] or by [main] returning (code 0). *)
Inductive Event :=
| EvCall {X : Type} (c : Eff X) (x : X)
| EvMakeChan (c : Chan)
| EvGo (w : Worker) (cli : K8sClient) (done : Chan)
| EvRecv (c : Chan)
| EvExit (code : Z)
| EvWork (w : Worker) (done : Chan)
| EvSignal (w : Worker) (done : Chan).

(** Modelled from the spec: the bodies of
    [configController.RemoveAllConfigFinalizers] (pkg/controller/config) and
    [constrainttemplate.RemoveAllFinalizers] (pkg/controller/constrainttemplate),
    of which [main.go] has only the calls.  Per the spec a cleanup worker, given
    a cluster connection and a completion signal, does its best-effort removals
    and then fires the completion signal exactly once, whatever the removals
    did.  A started worker is [Working] with a number of removal steps left;
    with none left it fires the signal on [done] and is [Finished]. *)
Inductive Goroutine :=
| Working (w : Worker) (cli : K8sClient) (done : Chan) (left : nat)
| Finished.

Definition worker_step (g : Goroutine) : option (Goroutine * Event * option Chan) :=
  match g with
  | Working wk cli d (S n) => Some (Working wk cli d n, EvWork wk d, None)
  | Working wk cli d O => Some (Finished, EvSignal wk d, Some d)
  | Finished => None
  end.

Inductive Status :=
| Running (p : Prog unit)
| Exited (code : Z).

Record State := {
  st_main : Status;                (* the main goroutine, or the exit code *)
  st_next : nat;                   (* channels made so far *)
  st_closed : gset Chan;         (* channels whose signal has fired *)
  st_pool : list Goroutine;        (* goroutines started with go *)
  st_trace : list Event            (* history, oldest first *)
}.

Inductive Tid :=
| TMain
| TGo (i : nat).

(** One step of thread [t]; [None] when [t] cannot move (it is blocked in a
    receive, has finished, or the process is over). *)
Definition step (w : World) (t : Tid) (s : State) : option State :=
  match st_main s with
  | Exited _ => None
  | Running p =>
    match t with
    | TMain =>
      match p with
      | Ret _ =>
        Some {| st_main := Exited 0; st_next := st_next s; st_closed := st_closed s;
                st_pool := st_pool s; st_trace := st_trace s ++ [EvExit 0] |}
      | Call c k =>
        Some {| st_main := Running (k (answer w c)); st_next := st_next s;
                st_closed := st_closed s; st_pool := st_pool s;
                st_trace := st_trace s ++ [EvCall c (answer w c)] |}
      | MakeChan k =>
        Some {| st_main := Running (k (st_next s)); st_next := S (st_next s);
                st_closed := st_closed s; st_pool := st_pool s;
                st_trace := st_trace s ++ [EvMakeChan (st_next s)] |}
      | Go wk cli d k =>
        Some {| st_main := Running k; st_next := st_next s; st_closed := st_closed s;
                st_pool := st_pool s ++ [Working wk cli d (w_work w wk)];
                st_trace := st_trace s ++ [EvGo wk cli d] |}
      | Recv c k =>
        if decide (c ∈ st_closed s) then
          Some {| st_main := Running k; st_next := st_next s; st_closed := st_closed s;
                  st_pool := st_pool s; st_trace := st_trace s ++ [EvRecv c] |}
        else None
      | Exit code =>
        Some {| st_main := Exited code; st_next := st_next s; st_closed := st_closed s;
                st_pool := st_pool s; st_trace := st_trace s ++ [EvExit code] |}
      end
    | TGo i =>
      match st_pool s !! i with
      | Some g =>
        match worker_step g with
        | Some (g', ev, fired) =>
          Some {| st_main := st_main s; st_next := st_next s;
                  st_closed := match fired with
                               | Some d => {[ d ]} ∪ st_closed s
                               | None => st_closed s
                               end;
                  st_pool := <[ i := g' ]> (st_pool s);
                  st_trace := st_trace s ++ [ev] |}
        | None => None
        end
      | None => None
      end
    end
  end.

Definition Step (w : World) (s s' : State) : Prop := ∃ t, step w t s = Some s'.

Definition init (p : Prog unit) : State :=
  {| st_main := Running p; st_next := 0; st_closed := ∅; st_pool := []; st_trace := [] |}.

(** The states of the process running [p] in world [w], on any schedule. *)
Definition reachable (w : World) (p : Prog unit) (s : State) : Prop :=
  rtc (Step w) (init p) s.

Definition exit_code (s : State) : option Z :=
  match st_main s with
  | Exited code => Some code
  | Running _ => None
  end.

(** Runs a schedule; a thread that cannot move when picked is skipped. *)
Fixpoint run_sched (w : World) (sched : list Tid) (s : State) : State :=
  match sched with
  | [] => s
  | t :: sched' =>
    match step w t s with
    | Some s' => run_sched w sched' s'
    | None => run_sched w sched' s
    end
  end.

(** On every schedule the process ends, and [Q] holds of the state it ends
    in. *)
Inductive Inevitably (w : World) (Q : State -> Prop) (s : State) : Prop :=
| inev_exited code : st_main s = Exited code -> Q s -> Inevitably w Q s
| inev_step :
    exit_code s = None ->
    (∃ s', Step w s s') ->
    (∀ s', Step w s s' -> Inevitably w Q s') ->
    Inevitably w Q s.

(** ** The main goroutine on its own *)

(** The events of the main goroutine in program order, with [nch] channels
    already made: what it records if no receive blocks for ever. *)
Fixpoint coord_trace (w : World) (nch : nat) (p : Prog unit) : list Event :=
  match p with
  | Ret _ => [EvExit 0]
  | Call c k => EvCall c (answer w c) :: coord_trace w nch (k (answer w c))
  | MakeChan k => EvMakeChan nch :: coord_trace w (S nch) (k nch)
  | Go wk cli d k => EvGo wk cli d :: coord_trace w nch k
  | Recv c k => EvRecv c :: coord_trace w nch k
  | Exit code => [EvExit code]
  end.

Definition is_coord (ev : Event) : bool :=
  match ev with
  | EvWork _ _ | EvSignal _ _ => false
  | _ => true
  end.

(** What remains of the main goroutine's events in state [s]. *)
Definition coord_rest (w : World) (s : State) : list Event :=
  match st_main s with
  | Running p => coord_trace w (st_next s) p
  | Exited _ => []
  end.

(** ** Termination measure *)

Definition goroutine_fuel (g : Goroutine) : nat :=
  match g with
  | Working _ _ _ n => S n
  | Finished => 0
  end.

Definition pool_fuel (pool : list Goroutine) : nat :=
  sum_list_with goroutine_fuel pool.

(** Steps the main goroutine and the goroutines it will start can still take. *)
Fixpoint coord_fuel (w : World) (nch : nat) (p : Prog unit) : nat :=
  match p with
  | Ret _ => 1
  | Call c k => S (coord_fuel w nch (k (answer w c)))
  | MakeChan k => S (coord_fuel w (S nch) (k nch))
  | Go wk cli d k => S (S (w_work w wk)) + coord_fuel w nch k
  | Recv c k => S (coord_fuel w nch k)
  | Exit code => 1
  end.

Definition fuel (w : World) (s : State) : nat :=
  match st_main s with
  | Running p => coord_fuel w (st_next s) p + pool_fuel (st_pool s)
  | Exited _ => 0
  end.

(** ** Order of events in a history *)

(** Every event satisfying [Q] comes after some event satisfying [P]. *)
Definition Before (P Q : Event -> Prop) (tr : list Event) : Prop :=
  ∀ l1 x l2, tr = l1 ++ x :: l2 -> Q x -> ∃ y, y ∈ l1 ∧ P y.

Definition started (wk : Worker) (c : Chan) (ev : Event) : Prop :=
  ∃ cli, ev = EvGo wk cli c.

(** Every receive of the main goroutine is on a channel that was handed to a
    goroutine started before. *)
Definition recv_guarded (tr : list Event) : Prop :=
  ∀ c, Before (fun ev => ∃ wk cli, ev = EvGo wk cli c) (fun ev => ev = EvRecv c) tr.

(** ** The setup steps of [main] *)

Inductive SetupStep :=
| ConnectionDiscovery            (* config.GetConfig *)
| ManagerConstruction            (* manager.New *)
| SchemeRegistration             (* apis.AddToScheme *)
| PolicyBackendConstruction      (* opa.NewBackend *)
| PolicyClientConstruction       (* backend.NewClient *)
| WatchManagerConstruction       (* watch.New *)
| ControllerRegistration         (* controller.AddToManager *)
| WebhookRegistration            (* webhook.AddToManager *)
| AuditRegistration              (* audit.AddToManager *)
| UpgradeRegistration.           (* upgrade.AddToManager *)

Definition setup_order : list SetupStep :=
  [ConnectionDiscovery; ManagerConstruction; SchemeRegistration;
   PolicyBackendConstruction; PolicyClientConstruction; WatchManagerConstruction;
   ControllerRegistration; WebhookRegistration; AuditRegistration;
   UpgradeRegistration].

Definition step_index (st : SetupStep) : nat :=
  match st with
  | ConnectionDiscovery => 0
  | ManagerConstruction => 1
  | SchemeRegistration => 2
  | PolicyBackendConstruction => 3
  | PolicyClientConstruction => 4
  | WatchManagerConstruction => 5
  | ControllerRegistration => 6
  | WebhookRegistration => 7
  | AuditRegistration => 8
  | UpgradeRegistration => 9
  end.

(** The steps whose failure branch in [main] ends in [os.Exit(1)]:
    [watch.New] returns no error, and the error of [backend.NewClient] is
    logged only. *)
Definition fatal (st : SetupStep) : bool :=
  match st with
  | PolicyClientConstruction | WatchManagerConstruction => false
  | _ => true
  end.

(** The error a step returns in world [w]. *)
Definition step_error (w : World) (st : SetupStep) : error :=
  match st with
  | ConnectionDiscovery => snd (w_getConfig w)
  | ManagerConstruction => snd (w_managerNew w)
  | SchemeRegistration => w_addToScheme w
  | PolicyBackendConstruction => snd (w_newBackend w)
  | PolicyClientConstruction => snd (w_newClient w)
  | WatchManagerConstruction => None
  | ControllerRegistration => w_controller w
  | WebhookRegistration => w_webhook w
  | AuditRegistration => w_audit w
  | UpgradeRegistration => w_upgrade w
  end.

(** The steps of [sts] that run in world [w]: all up to and including the
    first whose failure is fatal and which fails. *)
Fixpoint steps_until_failure (w : World) (sts : list SetupStep) : list SetupStep :=
  match sts with
  | [] => []
  | st :: sts' =>
    st :: match step_error w st with
          | Some _ => if fatal st then [] else steps_until_failure w sts'
          | None => steps_until_failure w sts'
          end
  end.

(** The message [main] logs with the error of a step. *)
Definition failure_message (st : SetupStep) : string :=
  match st with
  | ConnectionDiscovery => "unable to set up client config"
  | ManagerConstruction => "unable to set up overall controller manager"
  | SchemeRegistration => "unable add APIs to scheme"
  | PolicyBackendConstruction => "unable to set up OPA backend"
  | PolicyClientConstruction => "unable to set up OPA client"
  | WatchManagerConstruction => ""
  | ControllerRegistration => "unable to register controllers to the manager"
  | WebhookRegistration => "unable to register webhooks to the manager"
  | AuditRegistration => "unable to register audit to the manager"
  | UpgradeRegistration => "unable to register upgrade to the manager"
  end.

Definition setup_step_of {X : Type} (c : Eff X) : option SetupStep :=
  match c with
  | ConfigGetConfig => Some ConnectionDiscovery
  | ManagerNew _ => Some ManagerConstruction
  | ApisAddToScheme _ => Some SchemeRegistration
  | OpaNewBackend _ => Some PolicyBackendConstruction
  | BackendNewClient _ => Some PolicyClientConstruction
  | WatchNew _ _ => Some WatchManagerConstruction
  | ControllerAddToManager _ _ _ => Some ControllerRegistration
  | WebhookAddToManager _ _ => Some WebhookRegistration
  | AuditAddToManager _ _ => Some AuditRegistration
  | UpgradeAddToManager _ => Some UpgradeRegistration
  | _ => None
  end.

(** The error among the results of a call. *)
Definition call_error {X : Type} (c : Eff X) : X -> error :=
  match c in Eff X return X -> error with
  | ConfigGetConfig => snd
  | ManagerNew _ => snd
  | ApisAddToScheme _ => fun r => r
  | OpaNewBackend _ => snd
  | BackendNewClient _ => snd
  | ControllerAddToManager _ _ _ => fun r => r
  | WebhookAddToManager _ _ => fun r => r
  | AuditAddToManager _ _ => fun r => r
  | UpgradeAddToManager _ => fun r => r
  | MgrStart _ _ => fun r => r
  | K8sCliNew _ => snd
  | _ => fun _ => None
  end.

Definition ev_setup_step (ev : Event) : option SetupStep :=
  match ev with
  | EvCall c _ => setup_step_of c
  | _ => None
  end.

Definition ev_error (ev : Event) : error :=
  match ev with
  | EvCall c x => call_error c x
  | _ => None
  end.

(** The setup steps that have returned in a history, oldest first. *)
Fixpoint steps_of (tr : list Event) : list SetupStep :=
  match tr with
  | [] => []
  | ev :: tr' =>
    match ev_setup_step ev with
    | Some st => st :: steps_of tr'
    | None => steps_of tr'
    end
  end.

(** ** Kinds of events *)

(** The blocking run call [mgr.Start] has returned. *)
Definition is_run (ev : Event) : bool :=
  match ev with
  | EvCall (MgrStart _ _) _ => true
  | _ => false
  end.

(** [wmCancel()]: the watch lifetime is cancelled. *)
Definition is_cancel (ev : Event) : bool :=
  match ev with
  | EvCall (CallCancel _) _ => true
  | _ => false
  end.

(** [time.Sleep(5 * time.Second)] has returned. *)
Definition is_drain (ev : Event) : bool :=
  match ev with
  | EvCall (TimeSleep d) _ => Z.eqb d (5 * time_Second)
  | _ => false
  end.

(** The cleanup client was built ([k8sCli.New] returned), with or without
    error. *)
Definition is_cleanup_client (ev : Event) : bool :=
  match ev with
  | EvCall (K8sCliNew _) _ => true
  | _ => false
  end.

Definition nil_error (e : error) : bool :=
  match e with
  | None => true
  | Some _ => false
  end.

(** The cleanup client was built without error: the cleanup phase begins. *)
Definition is_cleanup_client_ok (ev : Event) : bool :=
  is_cleanup_client ev && nil_error (ev_error ev).

(** A cleanup worker is started. *)
Definition is_go (ev : Event) : bool :=
  match ev with
  | EvGo _ _ _ => true
  | _ => false
  end.

(** Any event of a cleanup worker: its start, a step of its work, its
    signal. *)
Definition is_worker (ev : Event) : bool :=
  match ev with
  | EvGo _ _ _ | EvWork _ _ | EvSignal _ _ => true
  | _ => false
  end.

(** An error record with message [msg]. *)
Definition is_error_log (msg : string) (ev : Event) : bool :=
  match ev with
  | EvCall (LogError _ _ m) _ => String.eqb m msg
  | _ => false
  end.

(** The call of setup step [st] has returned. *)
Definition is_step (st : SetupStep) (ev : Event) : bool :=
  match ev_setup_step ev with
  | Some st' => step_index st' =? step_index st
  | None => false
  end.

(** The exit code a history ends with. *)
Definition final_code (tr : list Event) : option Z :=
  match last tr with
  | Some (EvExit code) => Some code
  | _ => None
  end.

(** Worker [wk]'s completion signal fired and was then received by the main
    goroutine, within the history [tr]. *)
Definition observed (wk : Worker) (tr : list Event) : Prop :=
  ∃ c l1 l2 l3, tr = l1 ++ EvSignal wk c :: l2 ++ EvRecv c :: l3.

(** The channels [main] makes, in the order it makes them. *)
Definition syncCleaned : Chan := 0.
Definition templatesCleaned : Chan := 1.

(** The channel [main] hands to each cleanup worker. *)
Definition worker_chan (wk : Worker) : Chan :=
  match wk with
  | RemoveAllConfigFinalizers => syncCleaned
  | RemoveAllFinalizers => templatesCleaned
  end.

Definition is_recv (c : Chan) (ev : Event) : bool :=
  match ev with
  | EvRecv c' => c' =? c
  | _ => false
  end.

(** A started worker is handed its own channel. *)
Definition go_matches (ev : Event) : bool :=
  match ev with
  | EvGo wk _ c => c =? worker_chan wk
  | _ => true
  end.

(** ** Worlds by outcome *)

(** No step whose failure is fatal fails. *)
Definition setup_succeeds (w : World) : Prop :=
  ∀ st, fatal st = true -> step_error w st = None.

Definition setup_ok (w : World) : bool :=
  forallb (fun st => implb (fatal st) (nil_error (step_error w st))) setup_order.

(** Setup, the run call and the construction of the cleanup client all
    succeed. *)
Definition clean (w : World) : bool :=
  setup_ok w && nil_error (w_mgrStart w) && nil_error (snd (w_k8sCliNew w)).

(** ** Handles produced and consumed *)

Inductive Handle :=
| HConfig (h : RestConfig)
| HManager (h : Manager)
| HScheme (h : Scheme)
| HDriver (h : Driver)
| HBackend (h : Backend)
| HOpaClient (h : OpaClient)
| HContext (h : Context)
| HCancel (h : CancelFunc)
| HWatch (h : WatchManager)
| HStop (h : StopCh)
| HK8s (h : K8sClient)
| HChan (h : Chan).

Definition consumes {X : Type} (c : Eff X) : list Handle :=
  match c with
  | ManagerNew cfg => [HConfig cfg]
  | MgrGetScheme mgr => [HManager mgr]
  | ApisAddToScheme s => [HScheme s]
  | OpaNewBackend d => [HDriver d]
  | BackendNewClient b => [HBackend b]
  | MgrGetConfig mgr => [HManager mgr]
  | WatchNew ctx cfg => [HContext ctx; HConfig cfg]
  | ControllerAddToManager mgr client wm => [HManager mgr; HOpaClient client; HWatch wm]
  | WebhookAddToManager mgr client => [HManager mgr; HOpaClient client]
  | AuditAddToManager mgr client => [HManager mgr; HOpaClient client]
  | UpgradeAddToManager mgr => [HManager mgr]
  | MgrStart mgr stop => [HManager mgr; HStop stop]
  | CallCancel cancel => [HCancel cancel]
  | K8sCliNew cfg => [HConfig cfg]
  | _ => []
  end.

Definition produces {X : Type} (c : Eff X) : X -> list Handle :=
  match c in Eff X return X -> list Handle with
  | ConfigGetConfig => fun r => [HConfig (fst r)]
  | ManagerNew _ => fun r => [HManager (fst r)]
  | MgrGetScheme _ => fun r => [HScheme r]
  | LocalNew _ => fun r => [HDriver r]
  | OpaNewBackend _ => fun r => [HBackend (fst r)]
  | BackendNewClient _ => fun r => [HOpaClient (fst r)]
  | ContextWithCancel => fun r => [HContext (fst r); HCancel (snd r)]
  | MgrGetConfig _ => fun r => [HConfig r]
  | WatchNew _ _ => fun r => [HWatch r]
  | SignalsSetupSignalHandler => fun r => [HStop r]
  | K8sCliNew _ => fun r => [HK8s (fst r)]
  | _ => fun _ => []
  end.

Definition ev_consumes (ev : Event) : list Handle :=
  match ev with
  | EvCall c _ => consumes c
  | EvGo _ cli d => [HK8s cli; HChan d]
  | EvRecv c => [HChan c]
  | _ => []
  end.

Definition ev_produces (ev : Event) : list Handle :=
  match ev with
  | EvCall c x => produces c x
  | EvMakeChan c => [HChan c]
  | _ => []
  end.

(** Every handle an event of [tr] consumes is in [seen] or was produced by an
    earlier event of [tr]. *)
Fixpoint scoped (seen : list Handle) (tr : list Event) : Prop :=
  match tr with
  | [] => True
  | ev :: tr' =>
    (∀ h, h ∈ ev_consumes ev -> h ∈ seen) ∧ scoped (ev_produces ev ++ seen) tr'
  end.

(** ** Executable checks on a history *)

(** Every event satisfying [Q] comes after one satisfying [P] ([seen]: one
    has been met already). *)
Fixpoint beforeb (P Q : Event -> bool) (seen : bool) (tr : list Event) : bool :=
  match tr with
  | [] => true
  | ev :: tr' => implb (Q ev) seen && beforeb P Q (seen || P ev) tr'
  end.

(** Every receive is on a channel already handed to a started goroutine. *)
Fixpoint recv_guardedb (handed : list Chan) (tr : list Event) : bool :=
  match tr with
  | [] => true
  | EvGo _ _ c :: tr' => recv_guardedb (c :: handed) tr'
  | EvRecv c :: tr' => existsb (Nat.eqb c) handed && recv_guardedb handed tr'
  | _ :: tr' => recv_guardedb handed tr'
  end.

(** The history holds, in this order, an event for each of [ps] (scanning
    from the left, each predicate takes the first event that fits). *)
Fixpoint in_order (ps : list (Event -> bool)) (tr : list Event) : bool :=
  match tr with
  | [] => match ps with [] => true | _ :: _ => false end
  | ev :: tr' =>
    match ps with
    | [] => true
    | p :: ps' => if p ev then in_order ps' tr' else in_order ps tr'
    end
  end.

(** For every event of [tr] satisfying [Q], the history before it passes
    [test] ([pre]: the history before [tr]). *)
Fixpoint each_prefix (test : list Event -> bool) (Q : Event -> bool)
         (pre tr : list Event) : bool :=
  match tr with
  | [] => true
  | ev :: tr' => implb (Q ev) (test pre) && each_prefix test Q (pre ++ [ev]) tr'
  end.

#[global] Instance SetupStep_eq_dec : EqDecision SetupStep.
Proof. solve_decision. Defined.

(** All setup steps have returned, in the order of [setup_order], and none
    twice. *)
Definition setup_complete (tr : list Event) : bool :=
  bool_decide (steps_of tr = setup_order).

(** The message [main] logs before [os.Exit(1)] when the call of the event
    returns an error; [None] for calls whose error does not end the process. *)
Definition fatal_message (ev : Event) : option string :=
  match ev with
  | EvCall (K8sCliNew _) _ => Some "unable to create cleanup client"
  | _ =>
    match ev_setup_step ev with
    | Some st => if fatal st then Some (failure_message st) else None
    | None => None
    end
  end.

(** After a call whose error is fatal has failed, the history has the error
    record and the exit with status 1, and nothing else. *)
Fixpoint fails_fast (tr : list Event) : Prop :=
  match tr with
  | [] => True
  | ev :: tr' =>
    (∀ msg e, fatal_message ev = Some msg -> ev_error ev = Some e ->
       tr' = [EvCall (LogError "entrypoint" e msg) tt; EvExit 1])
    ∧ fails_fast tr'
  end.

(** The event is not a setup step later than [st]. *)
Definition within (st : SetupStep) (ev : Event) : bool :=
  match ev_setup_step ev with
  | Some st' => step_index st' <=? step_index st
  | None => true
  end.

(** ** Sample worlds *)

(** Every call succeeds; the two cleanup workers take 3 and 1 steps. *)
Definition world_ok : World := {|
  w_getConfig := (RestConfigAt 1, None);
  w_managerNew := (ManagerAt 2, None);
  w_scheme := SchemeAt 3;
  w_addToScheme := None;
  w_driver := DriverAt 4;
  w_newBackend := (BackendAt 5, None);
  w_newClient := (OpaClientAt 6, None);
  w_withCancel := (ContextAt 7, CancelFuncAt 8);
  w_mgrConfig := RestConfigAt 1;
  w_watchNew := WatchManagerAt 9;
  w_controller := None;
  w_webhook := None;
  w_audit := None;
  w_upgrade := None;
  w_signalHandler := StopChAt 10;
  w_mgrStart := None;
  w_k8sCliNew := (K8sClientAt 11, None);
  w_work := fun wk => match wk with
                      | RemoveAllConfigFinalizers => 3
                      | RemoveAllFinalizers => 1
                      end
|}.

Definition with_addToScheme (e : error) (w : World) : World := {|
  w_getConfig := w_getConfig w; w_managerNew := w_managerNew w; w_scheme := w_scheme w;
  w_addToScheme := e;
  w_driver := w_driver w; w_newBackend := w_newBackend w; w_newClient := w_newClient w;
  w_withCancel := w_withCancel w; w_mgrConfig := w_mgrConfig w; w_watchNew := w_watchNew w;
  w_controller := w_controller w; w_webhook := w_webhook w; w_audit := w_audit w;
  w_upgrade := w_upgrade w; w_signalHandler := w_signalHandler w;
  w_mgrStart := w_mgrStart w; w_k8sCliNew := w_k8sCliNew w; w_work := w_work w
|}.

Definition with_newClient (r : OpaClient * error) (w : World) : World := {|
  w_getConfig := w_getConfig w; w_managerNew := w_managerNew w; w_scheme := w_scheme w;
  w_addToScheme := w_addToScheme w;
  w_driver := w_driver w; w_newBackend := w_newBackend w; w_newClient := r;
  w_withCancel := w_withCancel w; w_mgrConfig := w_mgrConfig w; w_watchNew := w_watchNew w;
  w_controller := w_controller w; w_webhook := w_webhook w; w_audit := w_audit w;
  w_upgrade := w_upgrade w; w_signalHandler := w_signalHandler w;
  w_mgrStart := w_mgrStart w; w_k8sCliNew := w_k8sCliNew w; w_work := w_work w
|}.

Definition with_mgrStart (e : error) (w : World) : World := {|
  w_getConfig := w_getConfig w; w_managerNew := w_managerNew w; w_scheme := w_scheme w;
  w_addToScheme := w_addToScheme w;
  w_driver := w_driver w; w_newBackend := w_newBackend w; w_newClient := w_newClient w;
  w_withCancel := w_withCancel w; w_mgrConfig := w_mgrConfig w; w_watchNew := w_watchNew w;
  w_controller := w_controller w; w_webhook := w_webhook w; w_audit := w_audit w;
  w_upgrade := w_upgrade w; w_signalHandler := w_signalHandler w;
  w_mgrStart := e; w_k8sCliNew := w_k8sCliNew w; w_work := w_work w
|}.

Definition with_k8sCliNew (r : K8sClient * error) (w : World) : World := {|
  w_getConfig := w_getConfig w; w_managerNew := w_managerNew w; w_scheme := w_scheme w;
  w_addToScheme := w_addToScheme w;
  w_driver := w_driver w; w_newBackend := w_newBackend w; w_newClient := w_newClient w;
  w_withCancel := w_withCancel w; w_mgrConfig := w_mgrConfig w; w_watchNew := w_watchNew w;
  w_controller := w_controller w; w_webhook := w_webhook w; w_audit := w_audit w;
  w_upgrade := w_upgrade w; w_signalHandler := w_signalHandler w;
  w_mgrStart := w_mgrStart w; w_k8sCliNew := r; w_work := w_work w
|}.

(** Scheme registration fails. *)
Definition world_scheme_fails : World :=
  with_addToScheme (Some "no kind registered") world_ok.

(** The policy client cannot be built; all else succeeds. *)
Definition world_client_fails : World :=
  with_newClient (OpaClientAt 0, Some "target rejected") world_ok.

(** The run call returns an error; all else succeeds. *)
Definition world_run_fails : World :=
  with_mgrStart (Some "leader election lost") world_ok.

(** The cleanup client cannot be built; all else succeeds. *)
Definition world_cleanup_client_fails : World :=
  with_k8sCliNew (K8sClientAt 0, Some "connection refused") world_ok.

(** The run call returns an error and the cleanup client cannot be built. *)
Definition world_run_and_cleanup_client_fail : World :=
  with_k8sCliNew (K8sClientAt 0, Some "connection refused") world_run_fails.

(** A schedule that runs the main goroutine as far as it goes, then the
    second worker, then the first, then the main goroutine to its end. *)
Definition sched_staggered : list Tid :=
  replicate 40 TMain ++ replicate 2 (TGo 1) ++ replicate 4 (TGo 0) ++ replicate 5 TMain.

(** The four setup steps before the construction of the policy client
    succeed. *)
Definition steps_before_client_ok (w : World) : bool :=
  nil_error (step_error w ConnectionDiscovery) && nil_error (step_error w ManagerConstruction)
  && nil_error (step_error w SchemeRegistration)
  && nil_error (step_error w PolicyBackendConstruction).


(** ** Records, operations and wiring *)

(** [logf.SetLogger] has returned: the logger is installed. *)
Definition is_set_logger (ev : Event) : bool :=
  match ev with
  | EvCall (LogfSetLogger _) _ => true
  | _ => false
  end.

(** A record written through the logger, [log.Info] or [log.Error]. *)
Definition is_log (ev : Event) : bool :=
  match ev with
  | EvCall (LogInfo _ _) _ | EvCall (LogError _ _ _) _ => true
  | _ => false
  end.

(** The message of a [log.Info] record. *)
Definition info_record (ev : Event) : option string :=
  match ev with
  | EvCall (LogInfo _ msg) _ => Some msg
  | _ => None
  end.

(** The error and the message of a [log.Error] record. *)
Definition error_record (ev : Event) : option (string * string) :=
  match ev with
  | EvCall (LogError _ e msg) _ => Some (e, msg)
  | _ => None
  end.

(** The info messages of a history, oldest first. *)
Fixpoint infos_of (tr : list Event) : list string :=
  match tr with
  | [] => []
  | ev :: tr' =>
    match info_record ev with
    | Some msg => msg :: infos_of tr'
    | None => infos_of tr'
    end
  end.

(** The [log.Info] lines of [main], from top to bottom. *)
Definition main_infos : list string :=
  ["setting up client for manager"; "setting up manager"; "Registering Components.";
   "setting up scheme"; "Setting up controller"; "setting up webhooks";
   "setting up audit"; "setting up upgrade"; "Starting the Cmd.";
   "removing finalizers..."; "finalizers removed"].

(** The message [main] passes to [log.Error] with the error of a call. *)
Definition error_text (ev : Event) : option string :=
  match ev with
  | EvCall (BackendNewClient _) _ => Some "unable to set up OPA client"
  | EvCall (MgrStart _ _) _ => Some "unable to run the manager"
  | _ => fatal_message ev
  end.

(** Every error record follows the call that returned its error, and every
    call that returned an error is followed by its record ([prev]: the event
    before [tr]). *)
Fixpoint records_follow (prev : option Event) (tr : list Event) : Prop :=
  match tr with
  | [] => True
  | y :: tr' =>
    (∀ e msg, error_record y = Some (e, msg) ->
       ∃ x, prev = Some x ∧ ev_error x = Some e ∧ error_text x = Some msg)
    ∧ (∀ x e, prev = Some x -> ev_error x = Some e ->
         ∃ msg, error_text x = Some msg ∧ error_record y = Some (e, msg))
    ∧ records_follow (Some y) tr'
  end.

(** An error record other than that of the policy client. *)
Definition is_fatal_record (ev : Event) : bool :=
  match error_record ev with
  | Some (_, msg) => negb (String.eqb msg "unable to set up OPA client")
  | None => false
  end.

(** The operations of [main] apart from [mgr.GetConfig()], which it calls
    twice.  Log records are told apart by their message. *)
Inductive Op :=
| OpSetLogger | OpInfo (msg : string) | OpError (msg : string)
| OpGetConfig | OpManagerNew | OpGetScheme | OpAddToScheme | OpLocalNew
| OpNewBackend | OpNewClient | OpWithCancel | OpWatchNew
| OpController | OpWebhook | OpAudit | OpUpgrade
| OpSetupSignalHandler | OpStart | OpCancel | OpSleep | OpK8sCliNew
| OpMakeChan (c : Chan) | OpGo (wk : Worker) | OpRecv (c : Chan) | OpExit.

#[global] Instance Worker_eq_dec : EqDecision Worker.
Proof. solve_decision. Defined.

Definition op_eqb (a b : Op) : bool :=
  match a, b with
  | OpInfo m, OpInfo m' | OpError m, OpError m' => String.eqb m m'
  | OpMakeChan c, OpMakeChan c' | OpRecv c, OpRecv c' => c =? c'
  | OpGo wk, OpGo wk' => bool_decide (wk = wk')
  | OpSetLogger, OpSetLogger | OpGetConfig, OpGetConfig | OpManagerNew, OpManagerNew
  | OpGetScheme, OpGetScheme | OpAddToScheme, OpAddToScheme | OpLocalNew, OpLocalNew
  | OpNewBackend, OpNewBackend | OpNewClient, OpNewClient | OpWithCancel, OpWithCancel
  | OpWatchNew, OpWatchNew | OpController, OpController | OpWebhook, OpWebhook
  | OpAudit, OpAudit | OpUpgrade, OpUpgrade
  | OpSetupSignalHandler, OpSetupSignalHandler | OpStart, OpStart | OpCancel, OpCancel
  | OpSleep, OpSleep | OpK8sCliNew, OpK8sCliNew | OpExit, OpExit => true
  | _, _ => false
  end.

(** No operation occurs twice in [l]. *)
Fixpoint nodupb (l : list Op) : bool :=
  match l with
  | [] => true
  | o :: l' => negb (existsb (op_eqb o) l') && nodupb l'
  end.

Definition op_of_call {X : Type} (c : Eff X) : option Op :=
  match c with
  | LogfSetLogger _ => Some OpSetLogger
  | LogInfo _ msg => Some (OpInfo msg)
  | LogError _ _ msg => Some (OpError msg)
  | ConfigGetConfig => Some OpGetConfig
  | ManagerNew _ => Some OpManagerNew
  | MgrGetScheme _ => Some OpGetScheme
  | ApisAddToScheme _ => Some OpAddToScheme
  | LocalNew _ => Some OpLocalNew
  | OpaNewBackend _ => Some OpNewBackend
  | BackendNewClient _ => Some OpNewClient
  | ContextWithCancel => Some OpWithCancel
  | MgrGetConfig _ => None
  | WatchNew _ _ => Some OpWatchNew
  | ControllerAddToManager _ _ _ => Some OpController
  | WebhookAddToManager _ _ => Some OpWebhook
  | AuditAddToManager _ _ => Some OpAudit
  | UpgradeAddToManager _ => Some OpUpgrade
  | SignalsSetupSignalHandler => Some OpSetupSignalHandler
  | MgrStart _ _ => Some OpStart
  | CallCancel _ => Some OpCancel
  | TimeSleep _ => Some OpSleep
  | K8sCliNew _ => Some OpK8sCliNew
  end.

Definition op_of (ev : Event) : option Op :=
  match ev with
  | EvCall c _ => op_of_call c
  | EvMakeChan c => Some (OpMakeChan c)
  | EvGo wk _ _ => Some (OpGo wk)
  | EvRecv c => Some (OpRecv c)
  | EvExit _ => Some OpExit
  | EvWork _ _ | EvSignal _ _ => None
  end.

(** The operations of the main goroutine in a history, oldest first. *)
Fixpoint ops_of (tr : list Event) : list Op :=
  match tr with
  | [] => []
  | ev :: tr' =>
    match op_of ev with
    | Some o => o :: ops_of tr'
    | None => ops_of tr'
    end
  end.

(** The policy client handed to a registration. *)
Definition client_arg (ev : Event) : option OpaClient :=
  match ev with
  | EvCall (ControllerAddToManager _ client _) _ => Some client
  | EvCall (WebhookAddToManager _ client) _ => Some client
  | EvCall (AuditAddToManager _ client) _ => Some client
  | _ => None
  end.

(** The manager a call is made on or handed. *)
Definition manager_arg (ev : Event) : option Manager :=
  match ev with
  | EvCall (MgrGetScheme mgr) _ => Some mgr
  | EvCall (MgrGetConfig mgr) _ => Some mgr
  | EvCall (ControllerAddToManager mgr _ _) _ => Some mgr
  | EvCall (WebhookAddToManager mgr _) _ => Some mgr
  | EvCall (AuditAddToManager mgr _) _ => Some mgr
  | EvCall (UpgradeAddToManager mgr) _ => Some mgr
  | EvCall (MgrStart mgr _) _ => Some mgr
  | _ => None
  end.

(** The configuration a client or the watch manager is built from. *)
Definition config_arg (ev : Event) : option RestConfig :=
  match ev with
  | EvCall (WatchNew _ cfg) _ => Some cfg
  | EvCall (K8sCliNew cfg) _ => Some cfg
  | _ => None
  end.

(** What a history hands on: each registration gets the policy client
    [backend.NewClient] returned, every use of the manager the one
    [manager.New] returned, [watch.New] and [k8sCli.New] the configuration
    [mgr.GetConfig()] returned, and each worker the client [k8sCli.New]
    returned and its own channel. *)
Definition wired (w : World) (ev : Event) : Prop :=
  (∀ client, client_arg ev = Some client -> client = fst (w_newClient w))
  ∧ (∀ mgr, manager_arg ev = Some mgr -> mgr = fst (w_managerNew w))
  ∧ (∀ cfg, config_arg ev = Some cfg -> cfg = w_mgrConfig w)
  ∧ (∀ wk cli c, ev = EvGo wk cli c -> cli = fst (w_k8sCliNew w) ∧ c = worker_chan wk).

(** The time the main goroutine has spent in [time.Sleep] in a history. *)
Fixpoint slept (tr : list Event) : Z :=
  match tr with
  | [] => 0
  | EvCall (TimeSleep d) _ :: tr' => (d + slept tr')%Z
  | _ :: tr' => slept tr'
  end.

(** Worker [wk] is started. *)
Definition is_go_of (wk : Worker) (ev : Event) : bool :=
  match ev with
  | EvGo wk' _ _ => bool_decide (wk' = wk)
  | _ => false
  end.

(** The main goroutine has received on some channel. *)
Definition is_any_recv (ev : Event) : bool :=
  match ev with
  | EvRecv _ => true
  | _ => false
  end.

(** Both completion signals have been received. *)
Definition both_received (tr : list Event) : bool :=
  existsb (is_recv syncCleaned) tr && existsb (is_recv templatesCleaned) tr.

Definition is_info (msg : string) (ev : Event) : bool :=
  match info_record ev with
  | Some m => String.eqb m msg
  | None => false
  end.

(** Two states that differ at most in the first event of their histories. *)
Definition same_but_first_event (s s' : State) : Prop :=
  st_main s = st_main s' ∧ st_next s = st_next s' ∧ st_closed s = st_closed s'
  ∧ st_pool s = st_pool s' ∧ tail (st_trace s) = tail (st_trace s')
  ∧ length (st_trace s) = length (st_trace s').

(** * Proofs *)

(** ** Lists and orders of events *)

Lemma snoc_decompose {A} (tr l1 l2 : list A) (x ev : A) :
  tr ++ [ev] = l1 ++ x :: l2 ->
  (l2 = [] ∧ x = ev ∧ l1 = tr) ∨ (∃ l2', l2 = l2' ++ [ev] ∧ tr = l1 ++ x :: l2').
Proof.
  destruct l2 as [|y l2 _] using rev_ind; intros H.
  - left. apply app_inj_tail in H as [-> ->]; auto.
  - right. exists l2.
    change (l1 ++ x :: l2 ++ [y]) with (l1 ++ (x :: l2) ++ [y]) in H.
    rewrite app_assoc in H. by apply app_inj_tail in H as [-> ->].
Qed.

Lemma Before_nil P Q : Before P Q [].
Proof. intros [|??] ?? H; discriminate H. Qed.

Lemma Before_snoc P Q tr ev :
  Before P Q tr -> (Q ev -> ∃ y, y ∈ tr ∧ P y) -> Before P Q (tr ++ [ev]).
Proof.
  intros Htr Hev l1 x l2 Heq Hx.
  apply snoc_decompose in Heq as [(-> & -> & ->)|(l2' & -> & ->)]; eauto.
Qed.

Lemma Before_elem P Q tr x :
  Before P Q tr -> x ∈ tr -> Q x -> ∃ y, y ∈ tr ∧ P y.
Proof.
  intros H Hin Hx. apply list_elem_of_split in Hin as (l1 & l2 & ->).
  destruct (H l1 x l2 eq_refl Hx) as (y & Hy & HP).
  exists y. split; [|done]. apply elem_of_app; auto.
Qed.

Lemma elem_of_filter_coord (ev : Event) tr :
  ev ∈ List.filter is_coord tr <-> ev ∈ tr ∧ is_coord ev = true.
Proof. rewrite !list_elem_of_In. apply List.filter_In. Qed.

Lemma filter_coord_all tr :
  (∀ ev, ev ∈ tr -> is_coord ev = true) -> List.filter is_coord tr = tr.
Proof.
  induction tr as [|ev tr IH]; intros H; [done|]. simpl.
  rewrite (H ev) by apply list_elem_of_here. f_equal. apply IH.
  intros ev' Hin. by apply H, list_elem_of_further.
Qed.

Lemma filter_filter_coord (f : Event -> bool) tr :
  (∀ ev, f ev = true -> is_coord ev = true) ->
  List.filter f (List.filter is_coord tr) = List.filter f tr.
Proof.
  intros Hf. induction tr as [|ev tr IH]; [done|]. simpl.
  destruct (is_coord ev) eqn:Hc; simpl; rewrite IH; [done|].
  destruct (f ev) eqn:Hev; [|done]. apply Hf in Hev. congruence.
Qed.

Lemma existsb_filter_coord (f : Event -> bool) tr :
  (∀ ev, f ev = true -> is_coord ev = true) ->
  existsb f (List.filter is_coord tr) = existsb f tr.
Proof.
  intros Hf. induction tr as [|ev tr IH]; [done|]. simpl.
  destruct (is_coord ev) eqn:Hc; simpl; rewrite IH; [done|].
  destruct (f ev) eqn:Hev; [|done]. apply Hf in Hev. congruence.
Qed.

Lemma forallb_elem (f : Event -> bool) tr ev :
  forallb f tr = true -> ev ∈ tr -> f ev = true.
Proof. intros H Hin. rewrite forallb_forall in H. by apply H, list_elem_of_In. Qed.

Lemma existsb_elem (f : Event -> bool) tr :
  existsb f tr = true -> ∃ ev, ev ∈ tr ∧ f ev = true.
Proof.
  intros H. apply existsb_exists in H as (ev & Hin & Hf). exists ev.
  split; [by apply list_elem_of_In|done].
Qed.

Lemma elem_existsb (f : Event -> bool) tr ev :
  ev ∈ tr -> f ev = true -> existsb f tr = true.
Proof.
  intros Hin Hf. apply existsb_exists. exists ev. split; [by apply list_elem_of_In|done].
Qed.

Lemma existsb_none (f : Event -> bool) tr :
  (∀ ev, ev ∈ tr -> f ev = false) -> existsb f tr = false.
Proof.
  intros H. destruct (existsb f tr) eqn:Hex; [|done].
  apply existsb_elem in Hex as (ev & Hin & Hf). rewrite (H ev Hin) in Hf. done.
Qed.

Lemma Before_coord (P Q : Event -> Prop) tr rest :
  Before P Q (List.filter is_coord tr ++ rest) ->
  (∀ x, Q x -> is_coord x = true) ->
  Before P Q tr.
Proof.
  intros HB HQ l1 x l2 -> Hx.
  destruct (HB (List.filter is_coord l1) x (List.filter is_coord l2 ++ rest)) as (y & Hy & HP).
  - rewrite List.filter_app. simpl. rewrite (HQ x Hx). by rewrite <- app_assoc.
  - done.
  - exists y. split; [|done]. by apply elem_of_filter_coord in Hy as [Hy _].
Qed.

Lemma final_code_snoc tr code : final_code (tr ++ [EvExit code]) = Some code.
Proof. unfold final_code. by rewrite last_snoc. Qed.

Lemma pool_fuel_app pool g : pool_fuel (pool ++ [g]) = pool_fuel pool + goroutine_fuel g.
Proof.
  unfold pool_fuel. rewrite sum_list_with_app. simpl. lia.
Qed.

Lemma pool_fuel_insert pool i g g' :
  pool !! i = Some g ->
  pool_fuel (<[i:=g']> pool) + goroutine_fuel g = pool_fuel pool + goroutine_fuel g'.
Proof.
  unfold pool_fuel. revert i. induction pool as [|h pool IH]; intros [|i] H; simplify_eq/=.
  - lia.
  - specialize (IH _ H). lia.
Qed.

(** ** Soundness of the executable checks *)

Lemma beforeb_spec P Q seen tr :
  beforeb P Q seen tr = true ->
  ∀ l1 x l2, tr = l1 ++ x :: l2 -> Q x = true ->
    seen = true ∨ ∃ y, y ∈ l1 ∧ P y = true.
Proof.
  revert seen. induction tr as [|ev tr IH]; intros seen H l1 x l2 Heq Hx.
  - by destruct l1.
  - simpl in H. apply andb_prop in H as [H1 H2].
    destruct l1 as [|z l1]; simplify_eq/=.
    + rewrite Hx in H1. left. by destruct seen.
    + destruct (IH _ H2 l1 x l2 eq_refl Hx) as [Hs|(y & Hy & HP)].
      * apply orb_prop in Hs as [->|Hz]; [by left|]. right. exists z.
        split; [apply list_elem_of_here|done].
      * right. exists y. split; [by apply list_elem_of_further|done].
Qed.

Lemma beforeb_sound P Q tr :
  beforeb P Q false tr = true ->
  Before (fun ev => P ev = true) (fun ev => Q ev = true) tr.
Proof.
  intros H l1 x l2 Heq Hx.
  by destruct (beforeb_spec _ _ _ _ H l1 x l2 Heq Hx).
Qed.

Lemma recv_guardedb_spec handed tr :
  recv_guardedb handed tr = true ->
  ∀ l1 c l2, tr = l1 ++ EvRecv c :: l2 ->
    c ∈ handed ∨ ∃ y, y ∈ l1 ∧ ∃ wk cli, y = EvGo wk cli c.
Proof.
  revert handed. induction tr as [|ev tr IH]; intros handed H l1 c l2 Heq.
  - by destruct l1.
  - destruct l1 as [|z l1]; simplify_eq/=.
    + apply andb_prop in H as [H _]. left.
      apply existsb_exists in H as (c' & Hin & Hc). apply Nat.eqb_eq in Hc as ->.
      by apply list_elem_of_In.
    + assert (Hfurther : (∃ y, y ∈ l1 ∧ ∃ wk cli, y = EvGo wk cli c) ->
                c ∈ handed ∨ ∃ y, y ∈ z :: l1 ∧ ∃ wk cli, y = EvGo wk cli c).
      { intros (y & Hy & He). right. exists y. split; [by apply list_elem_of_further|done]. }
      destruct z; try (apply andb_prop in H as [_ H]);
        destruct (IH _ H l1 c l2 eq_refl) as [Hc|Hc]; auto.
      apply elem_of_cons in Hc as [->|Hc]; [|by left].
      right. eexists. split; [apply list_elem_of_here|]. by do 2 eexists.
Qed.

Lemma recv_guardedb_sound tr : recv_guardedb [] tr = true -> recv_guarded tr.
Proof.
  intros H c l1 x l2 Heq ->.
  destruct (recv_guardedb_spec _ _ H l1 c l2 Heq) as [Hc|Hc]; [|done].
  by apply elem_of_nil in Hc.
Qed.

Lemma in_order_nil tr : in_order [] tr = true.
Proof. by destruct tr. Qed.

Lemma in_order_app_l ps l l' : in_order ps l = true -> in_order ps (l ++ l') = true.
Proof.
  revert ps. induction l as [|ev l IH]; intros ps H; simpl in *.
  - destruct ps; [apply in_order_nil|done].
  - destruct ps as [|p ps]; [done|]. destruct (p ev); by apply IH.
Qed.

Lemma in_order_filter_coord ps tr :
  Forall (fun p : Event -> bool => ∀ ev, p ev = true -> is_coord ev = true) ps ->
  in_order ps (List.filter is_coord tr) = in_order ps tr.
Proof.
  revert ps. induction tr as [|ev tr IH]; intros ps Hps; [done|]. simpl.
  destruct (is_coord ev) eqn:Hc; simpl.
  - destruct ps as [|p ps]; [done|]. apply Forall_cons in Hps as [Hp Hps].
    destruct (p ev); apply IH; auto.
  - destruct ps as [|p ps]; [by destruct (List.filter is_coord tr)|].
    pose proof Hps as Hps'. apply Forall_cons in Hps' as [Hp _].
    destruct (p ev) eqn:Hev; [apply Hp in Hev; congruence|]. by apply IH.
Qed.

Lemma in_order_snoc_exit ps l code :
  ps ≠ [] ->
  Forall (fun q : Event -> bool => q (EvExit code) = false) ps ->
  in_order ps (l ++ [EvExit code]) = true -> in_order ps l = true.
Proof.
  revert ps. induction l as [|y l IH]; intros ps Hne Hps H.
  - destruct ps as [|q ps]; [done|]. apply Forall_cons in Hps as [Hq _].
    simpl in H. by rewrite Hq in H.
  - destruct ps as [|q ps]; [done|]. simpl in *. destruct (q y); [|by apply IH].
    destruct ps as [|q' ps]; [apply in_order_nil|].
    apply IH; [done| |done]. by apply Forall_cons in Hps as [_ ?].
Qed.

Lemma each_prefix_spec test Q pre tr :
  each_prefix test Q pre tr = true ->
  ∀ l1 ev l2, tr = l1 ++ ev :: l2 -> Q ev = true -> test (pre ++ l1) = true.
Proof.
  revert pre. induction tr as [|x tr IH]; intros pre H l1 ev l2 Heq Hev.
  - by destruct l1.
  - simpl in H. apply andb_prop in H as [H1 H2].
    destruct l1 as [|z l1]; simplify_eq/=.
    + rewrite Hev in H1. by rewrite app_nil_r.
    + specialize (IH _ H2 l1 ev l2 eq_refl Hev). by rewrite <- app_assoc in IH.
Qed.

Lemma fails_fast_spec tr l1 ev l2 msg e :
  fails_fast tr -> tr = l1 ++ ev :: l2 ->
  fatal_message ev = Some msg -> ev_error ev = Some e ->
  l2 = [EvCall (LogError "entrypoint" e msg) tt; EvExit 1].
Proof.
  revert tr. induction l1 as [|z l1 IH]; intros tr H -> Hmsg He; simpl in H.
  - destruct H as [H _]. by eapply H.
  - destruct H as [_ H]. by eapply IH.
Qed.

Lemma scoped_spec seen tr l1 ev l2 h :
  scoped seen tr -> tr = l1 ++ ev :: l2 -> h ∈ ev_consumes ev ->
  h ∈ seen ∨ ∃ ev', ev' ∈ l1 ∧ h ∈ ev_produces ev'.
Proof.
  revert seen tr. induction l1 as [|z l1 IH]; intros seen tr H -> Hh; simpl in H.
  - left. destruct H as [H _]. by apply H.
  - destruct H as [_ H]. destruct (IH _ _ H eq_refl Hh) as [Hin|(ev' & Hev' & Hp)].
    + apply elem_of_app in Hin as [Hin|Hin]; [|by left].
      right. exists z. split; [apply list_elem_of_here|done].
    + right. exists ev'. split; [by apply list_elem_of_further|done].
Qed.

Lemma steps_of_app l l' : steps_of (l ++ l') = steps_of l ++ steps_of l'.
Proof.
  induction l as [|ev l IH]; [done|]. simpl.
  destruct (ev_setup_step ev); simpl; by rewrite IH.
Qed.

Lemma steps_of_filter_coord tr : steps_of (List.filter is_coord tr) = steps_of tr.
Proof.
  induction tr as [|ev tr IH]; [done|]. simpl.
  destruct (is_coord ev) eqn:Hc; simpl; rewrite IH; [done|]. by destruct ev.
Qed.

Lemma is_cancel_coord ev : is_cancel ev = true -> is_coord ev = true.
Proof. by destruct ev. Qed.

Lemma is_run_coord ev : is_run ev = true -> is_coord ev = true.
Proof. by destruct ev. Qed.

Lemma is_recv_eq c ev : is_recv c ev = true -> ev = EvRecv c.
Proof. destruct ev; try done. simpl. by intros ->%Nat.eqb_eq. Qed.

Lemma nil_error_spec e : nil_error e = true <-> e = None.
Proof. by destruct e. Qed.

Lemma setup_ok_spec w : setup_ok w = true <-> setup_succeeds w.
Proof.
  unfold setup_ok, setup_succeeds. rewrite forallb_forall. split.
  - intros H st Hf. assert (Hin : In st setup_order) by (destruct st; simpl; tauto).
    specialize (H st Hin). rewrite Hf in H. simpl in H.
    by destruct (step_error w st).
  - intros H st _. destruct (fatal st) eqn:Hf; [|done]. by rewrite (H st Hf).
Qed.

Lemma clean_spec w :
  clean w = true <->
  setup_succeeds w ∧ w_mgrStart w = None ∧ snd (w_k8sCliNew w) = None.
Proof.
  unfold clean. rewrite !andb_true_iff, setup_ok_spec, !nil_error_spec. tauto.
Qed.

(** ** Invariants of the runtime *)

(** Case analysis on one step of the process. *)
Ltac step_cases H :=
  match type of H with
  | step ?w ?t ?s = Some ?s' =>
    let p := fresh "p" in
    let Hm := fresh "Hmain" in
    let g := fresh "g" in
    let Hg := fresh "Hpool" in
    let j := fresh "j" in
    unfold step in H;
    destruct (st_main s) as [p|] eqn:Hm; [|discriminate H];
    destruct t as [|j];
    [ destruct p as [[]|? ? ?|?|? ? ? ?|? ?|?];
      try (destruct (decide (_ ∈ st_closed s)); [|discriminate H])
    | destruct (st_pool s !! j) as [g|] eqn:Hg; [|discriminate H];
      destruct g as [? ? ? [|?]|]; simpl in H; [| |discriminate H] ];
    injection H as H; subst s'; simpl in *
  end.

Section Runtime.

Context (w : World) (p : Prog unit).

Lemma coord_inv_step s s' :
  Step w s s' ->
  List.filter is_coord (st_trace s') ++ coord_rest w s'
  = List.filter is_coord (st_trace s) ++ coord_rest w s.
Proof.
  intros [t H]. unfold coord_rest. step_cases H; rewrite ?Hmain;
    rewrite List.filter_app; simpl; rewrite <- ?app_assoc; simpl;
    rewrite ?app_nil_r; reflexivity.
Qed.

Lemma reachable_invariant (P : State -> Prop) :
  P (init p) ->
  (forall s s', reachable w p s -> Step w s s' -> P s -> P s') ->
  forall s, reachable w p s -> P s.
Proof.
  intros H0 Hstep s Hs. unfold reachable in *.
  revert s Hs. apply rtc_ind_r; [exact H0|].
  intros s s' Hs Hss IH. by apply (Hstep s s').
Qed.

Lemma coord_inv s :
  reachable w p s ->
  List.filter is_coord (st_trace s) ++ coord_rest w s = coord_trace w 0 p.
Proof.
  revert s. apply reachable_invariant; [reflexivity|].
  intros s s' _ Hs IH. rewrite <- IH. by apply coord_inv_step.
Qed.

Ltac reach_induction Hs :=
  match type of Hs with
  | reachable ?w ?p ?s =>
    pattern s; eapply reachable_invariant; [ | | exact Hs];
    clear s Hs; cbv beta
  end.

Lemma pool_started s :
  reachable w p s ->
  ∀ i wk cli d n, st_pool s !! i = Some (Working wk cli d n) -> EvGo wk cli d ∈ st_trace s.
Proof.
  intros Hs. reach_induction Hs; [intros i ???? Hi; simpl in Hi; by rewrite lookup_nil in Hi|].
  intros s s' _ [t H] IH i wk cli d n. step_cases H; intros Hi;
    try (apply elem_of_app; left; by eapply IH).
  - (* go *)
    apply lookup_app_Some in Hi as [Hi|[_ Hi]].
    + apply elem_of_app; left; by eapply IH.
    + apply list_lookup_singleton_Some in Hi as [_ [= -> -> -> <-]].
      apply elem_of_app; right. apply list_elem_of_singleton. done.
  - (* signal *)
    apply elem_of_app; left.
    destruct (decide (i = j)) as [->|Hne].
    + rewrite list_lookup_insert_eq in Hi; [done|]. by eapply lookup_lt_Some.
    + rewrite list_lookup_insert_ne in Hi by done. by eapply IH.
  - (* work *)
    apply elem_of_app; left.
    destruct (decide (i = j)) as [->|Hne].
    + rewrite list_lookup_insert_eq in Hi by (by eapply lookup_lt_Some).
      injection Hi as <- <- <- <-. by eapply IH.
    + rewrite list_lookup_insert_ne in Hi by done. by eapply IH.
Qed.

Lemma closed_signalled s :
  reachable w p s ->
  ∀ c, c ∈ st_closed s -> ∃ wk, EvSignal wk c ∈ st_trace s.
Proof.
  intros Hs. reach_induction Hs; [intros c Hc; simpl in Hc; set_solver|].
  intros s s' _ [t H] IH c. step_cases H; intros Hc;
    try (destruct (IH c Hc) as [wk Hwk]; exists wk; apply elem_of_app; by left).
  apply elem_of_union in Hc as [Hc|Hc].
  - apply elem_of_singleton in Hc as ->. eexists. apply elem_of_app. right.
    by apply list_elem_of_singleton.
  - destruct (IH c Hc) as [wk' Hwk]; exists wk'; apply elem_of_app; by left.
Qed.

(** A worker that was started is still working, or its signal has fired. *)
Lemma started_alive_or_fired s :
  reachable w p s ->
  ∀ wk cli c, EvGo wk cli c ∈ st_trace s ->
    (∃ i n, st_pool s !! i = Some (Working wk cli c n)) ∨ c ∈ st_closed s.
Proof.
  intros Hs. reach_induction Hs; [intros ??? H; simpl in H; by apply elem_of_nil in H|].
  intros s s' _ [t H] IH wk cli c. step_cases H; intros Hin;
    apply elem_of_app in Hin as [Hin|Hin];
    try (apply list_elem_of_singleton in Hin; discriminate Hin);
    try (by apply IH).
  - (* go, an earlier worker *)
    destruct (IH _ _ _ Hin) as [(i & n & Hi)|?]; [left|by right].
    exists i, n. by apply lookup_app_l_Some.
  - (* go, this worker *)
    apply list_elem_of_singleton in Hin. injection Hin as -> -> ->.
    left. exists (length (st_pool s)), (w_work w w0).
    by apply list_lookup_middle.
  - (* signal *)
    destruct (IH _ _ _ Hin) as [(i & n & Hi)|?]; [|right; set_solver].
    destruct (decide (i = j)) as [->|Hne].
    + right. rewrite Hpool in Hi. simplify_eq. set_solver.
    + left. exists i, n. by rewrite list_lookup_insert_ne.
  - (* work *)
    destruct (IH _ _ _ Hin) as [(i & n' & Hi)|?]; [left|by right].
    destruct (decide (i = j)) as [->|Hne].
    + rewrite Hpool in Hi. simplify_eq. exists j, n.
      rewrite list_lookup_insert_eq; [done|]. by eapply lookup_lt_Some.
    + exists i, n'. by rewrite list_lookup_insert_ne.
Qed.

(** A completion signal is fired by a started worker; a receive returns after
    the signal on its channel. *)
Lemma signal_after_go s wk c :
  reachable w p s ->
  Before (started wk c) (fun ev => ev = EvSignal wk c) (st_trace s).
Proof.
  intros Hs. reach_induction Hs; [apply Before_nil|].
  intros s s' Hs [t H] IH. pose proof (pool_started _ Hs) as Hp.
  step_cases H; apply Before_snoc; try done.
  intros [= <- <-]. eexists. split; [by eapply Hp|]. by eexists.
Qed.

Lemma work_after_go s wk c :
  reachable w p s ->
  Before (started wk c) (fun ev => ev = EvWork wk c) (st_trace s).
Proof.
  intros Hs. reach_induction Hs; [apply Before_nil|].
  intros s s' Hs [t H] IH. pose proof (pool_started _ Hs) as Hp.
  step_cases H; apply Before_snoc; try done.
  intros [= <- <-]. eexists. split; [by eapply Hp|]. by eexists.
Qed.

Lemma recv_after_signal s c :
  reachable w p s ->
  Before (fun ev => ∃ wk, ev = EvSignal wk c) (fun ev => ev = EvRecv c) (st_trace s).
Proof.
  intros Hs. reach_induction Hs; [apply Before_nil|].
  intros s s' Hs [t H] IH. pose proof (closed_signalled _ Hs) as Hc.
  step_cases H; apply Before_snoc; try done.
  intros [= <-]. destruct (Hc _ e) as [wk Hwk]. eauto.
Qed.

(** The exit is the last event of a history, and there is only one. *)
Lemma exit_last s :
  reachable w p s ->
  match st_main s with
  | Exited code => ∃ pre, st_trace s = pre ++ [EvExit code] ∧ ∀ c, EvExit c ∉ pre
  | Running _ => ∀ c, EvExit c ∉ st_trace s
  end.
Proof.
  intros Hs. reach_induction Hs; [intros c H; by apply elem_of_nil in H|].
  intros s s' _ [t H] IH. step_cases H; rewrite ?Hmain;
    try (by eexists);
    intros c' Hin; apply elem_of_app in Hin as [Hin|Hin];
    try (by eapply IH);
    apply list_elem_of_singleton in Hin; discriminate Hin.
Qed.

(** Every step uses up fuel. *)
Lemma step_fuel s s' : Step w s s' -> fuel w s' < fuel w s.
Proof.
  intros [t H]. unfold fuel. step_cases H; rewrite ?Hmain, ?pool_fuel_app; simpl; try lia.
  - pose proof (pool_fuel_insert _ _ _ Finished Hpool) as Hf. simpl in Hf. lia.
  - pose proof (pool_fuel_insert _ _ _ (Working w0 cli done n) Hpool) as Hf. simpl in Hf. lia.
Qed.

Lemma reachable_step s s' : reachable w p s -> Step w s s' -> reachable w p s'.
Proof. intros Hs Hss. by eapply rtc_r. Qed.

(** A program whose receives are all on channels handed to a started worker
    never blocks for ever. *)
Lemma progress s :
  recv_guarded (coord_trace w 0 p) ->
  reachable w p s -> exit_code s = None -> ∃ s', Step w s s'.
Proof.
  intros Hg Hs Hrun. unfold exit_code in Hrun.
  destruct (st_main s) as [q|] eqn:Hmain; [clear Hrun|done].
  assert (Hmove : (∀ c k, q ≠ Recv c k) -> ∃ s', Step w s s').
  { intros Hq. unfold Step, step. setoid_rewrite Hmain.
    destruct q as [[]| | | |c k|]; try (eexists; exists TMain; reflexivity).
    by destruct (Hq c k). }
  destruct q as [| | | |c k|]; try (apply Hmove; done). clear Hmove.
  destruct (decide (c ∈ st_closed s)) as [Hc|Hc].
  { unfold Step, step. setoid_rewrite Hmain. eexists; exists TMain.
    by rewrite decide_True. }
  pose proof (coord_inv _ Hs) as HJ. unfold coord_rest in HJ.
  rewrite Hmain in HJ. simpl in HJ. symmetry in HJ.
  destruct (Hg c _ _ _ HJ eq_refl) as (y & Hy & wk & cli & ->).
  apply list_elem_of_In, List.filter_In in Hy as [Hy _]. apply list_elem_of_In in Hy.
  destruct (started_alive_or_fired _ Hs _ _ _ Hy) as [(i & n & Hi)|?]; [|done].
  destruct n; eexists; exists (TGo i); unfold step; rewrite Hmain, Hi; reflexivity.
Qed.

Lemma inevitably_intro (Q : State -> Prop) :
  recv_guarded (coord_trace w 0 p) ->
  (∀ s code, reachable w p s -> st_main s = Exited code -> Q s) ->
  Inevitably w Q (init p).
Proof.
  intros Hg HQ.
  assert (H : ∀ n s, fuel w s < n -> reachable w p s -> Inevitably w Q s).
  { induction n as [|n IH]; intros s Hn Hs; [lia|].
    destruct (st_main s) as [q|code] eqn:Hmain.
    - apply inev_step.
      + unfold exit_code. by rewrite Hmain.
      + apply progress; [done..|]. unfold exit_code. by rewrite Hmain.
      + intros s' Hss. apply IH; [|by eapply reachable_step].
        pose proof (step_fuel _ _ Hss). lia.
    - eapply inev_exited; eauto. }
  apply (H (S (fuel w (init p)))); [lia|]. apply rtc_refl.
Qed.

(** The events of the main goroutine in a history are an initial part of its
    program's. *)
Lemma coord_prefix s :
  reachable w p s ->
  coord_trace w 0 p = List.filter is_coord (st_trace s) ++ coord_rest w s.
Proof. intros Hs. symmetry. by apply coord_inv. Qed.

Lemma coord_event_in s ev :
  reachable w p s -> ev ∈ st_trace s -> is_coord ev = true -> ev ∈ coord_trace w 0 p.
Proof.
  intros Hs Hin Hc. rewrite (coord_prefix _ Hs).
  apply elem_of_app. left. by apply elem_of_filter_coord.
Qed.

Lemma Before_reachable s (P Q : Event -> Prop) :
  reachable w p s ->
  Before P Q (coord_trace w 0 p) ->
  (∀ x, Q x -> is_coord x = true) ->
  Before P Q (st_trace s).
Proof.
  intros Hs HB HQ. rewrite (coord_prefix _ Hs) in HB. by eapply Before_coord.
Qed.

(** When the process has exited, the history holds all events of the main
    goroutine and ends with the exit. *)
Lemma exited_trace s code :
  reachable w p s -> st_main s = Exited code ->
  ∃ pre, st_trace s = pre ++ [EvExit code]
       ∧ (∀ c, EvExit c ∉ pre)
       ∧ coord_trace w 0 p = List.filter is_coord pre ++ [EvExit code]
       ∧ final_code (coord_trace w 0 p) = Some code.
Proof.
  intros Hs Hm. pose proof (exit_last _ Hs) as He. rewrite Hm in He.
  destruct He as (pre & Hpre & Hno). exists pre.
  assert (Hct : coord_trace w 0 p = List.filter is_coord pre ++ [EvExit code]).
  { rewrite (coord_prefix _ Hs). unfold coord_rest. rewrite Hm, Hpre, app_nil_r.
    by rewrite List.filter_app. }
  repeat split; try done. rewrite Hct. apply final_code_snoc.
Qed.

(** An exit event in a history is its last event. *)
Lemma exit_event_last s pre code post :
  reachable w p s -> st_trace s = pre ++ EvExit code :: post ->
  post = [] ∧ st_main s = Exited code.
Proof.
  intros Hs Htr. pose proof (exit_last _ Hs) as He.
  destruct (st_main s) as [q|code'] eqn:Hm.
  - destruct (He code). rewrite Htr. apply elem_of_app. right. apply list_elem_of_here.
  - destruct He as (pre' & Hpre & Hno). rewrite Hpre in Htr.
    apply snoc_decompose in Htr as [(-> & [= ->] & _)|(l2' & -> & ->)]; [done|].
    destruct (Hno code). apply elem_of_app. right. apply list_elem_of_here.
Qed.

End Runtime.

(** ** Schedules *)

Lemma run_sched_steps w sched s : rtc (Step w) s (run_sched w sched s).
Proof.
  revert s. induction sched as [|t sched IH]; intros s; simpl; [apply rtc_refl|].
  destruct (step w t s) as [s'|] eqn:Hs; [|apply IH].
  eapply rtc_l; [by exists t|apply IH].
Qed.

Lemma run_sched_reachable w p sched : reachable w p (run_sched w sched (init p)).
Proof. apply run_sched_steps. Qed.

(** [Inevitably] is not vacuous: some run reaches an exit at which [Q]
    holds. *)
Lemma inevitably_reachable w (Q : State -> Prop) s :
  Inevitably w Q s -> ∃ s', rtc (Step w) s s' ∧ is_Some (exit_code s') ∧ Q s'.
Proof.
  induction 1 as [s code Hm HQ|s Hrun [s1 Hs1] _ IH].
  - exists s. split; [apply rtc_refl|]. split; [|done]. unfold exit_code. by rewrite Hm.
  - destruct (IH s1 Hs1) as (s' & Hs' & HQ). exists s'. split; [|done].
    by eapply rtc_l.
Qed.

Lemma exited_no_step w s s' code : st_main s = Exited code -> ¬ Step w s s'.
Proof. intros Hm [t H]. unfold step in H. by rewrite Hm in H. Qed.

(** Under [Inevitably] every exit that can be reached satisfies [Q]. *)
Lemma inevitably_exits w (Q : State -> Prop) s s' code :
  Inevitably w Q s -> rtc (Step w) s s' -> st_main s' = Exited code -> Q s'.
Proof.
  intros H. revert s'. induction H as [s c Hm HQ|s Hrun _ _ IH]; intros s' Hs Hm'.
  - apply rtc_inv in Hs as [<-|(s1 & Hs1 & _)]; [done|].
    by destruct (exited_no_step _ _ _ _ Hm Hs1).
  - apply rtc_inv in Hs as [<-|(s1 & Hs1 & Hs)].
    + unfold exit_code in Hrun. by rewrite Hm' in Hrun.
    + by apply (IH s1).
Qed.

(** ** Histories of a process *)

Lemma worker_event_started w p s ev :
  reachable w p s -> ev ∈ st_trace s -> is_worker ev = true ->
  ∃ wk cli c, EvGo wk cli c ∈ st_trace s.
Proof.
  intros Hs Hin Hw. destruct ev as [X c x|c|wk cli c|c|code|wk c|wk c]; try discriminate Hw.
  - by exists wk, cli, c.
  - destruct (Before_elem _ _ _ _ (work_after_go w p s wk c Hs) Hin eq_refl)
      as (y & Hy & cli & ->). by exists wk, cli, c.
  - destruct (Before_elem _ _ _ _ (signal_after_go w p s wk c Hs) Hin eq_refl)
      as (y & Hy & cli & ->). by exists wk, cli, c.
Qed.

(** If the main goroutine starts no worker, the history has no worker event. *)
Lemma no_go_no_worker w p s :
  reachable w p s ->
  forallb (fun ev => negb (is_go ev)) (coord_trace w 0 p) = true ->
  ∀ ev, ev ∈ st_trace s -> is_worker ev = false ∧ is_coord ev = true.
Proof.
  intros Hs Hno ev Hin.
  assert (Hw : is_worker ev = false).
  { destruct (is_worker ev) eqn:Hw; [|done].
    destruct (worker_event_started _ _ _ _ Hs Hin Hw) as (wk & cli & c & Hgo).
    apply (coord_event_in _ _ _ _ Hs) in Hgo; [|done].
    by apply (forallb_elem _ _ _ Hno) in Hgo. }
  split; [done|]. by destruct ev.
Qed.

(** A receive that returned was preceded by the signal of a worker that had
    been started with that channel. *)
Lemma recv_observed w p s l1 c l2 :
  reachable w p s -> st_trace s = l1 ++ EvRecv c :: l2 ->
  ∃ wk cli a b, l1 = a ++ EvSignal wk c :: b ∧ EvGo wk cli c ∈ a.
Proof.
  intros Hs Htr.
  destruct (recv_after_signal w p s c Hs l1 _ l2 Htr eq_refl) as (y & Hy & wk & ->).
  apply list_elem_of_split in Hy as (a & b & ->).
  rewrite <- app_assoc in Htr. simpl in Htr.
  destruct (signal_after_go w p s wk c Hs a _ _ Htr eq_refl) as (y & Hy & cli & ->).
  by exists wk, cli, a, b.
Qed.

(** The events of one kind in a history are among those of the main
    goroutine's program, and are all of them once the process has exited. *)
Lemma count_reachable w p s (f : Event -> bool) :
  (∀ ev, f ev = true -> is_coord ev = true) ->
  reachable w p s ->
  length (List.filter f (st_trace s)) ≤ length (List.filter f (coord_trace w 0 p))
  ∧ (is_Some (exit_code s) ->
     List.filter f (st_trace s) = List.filter f (coord_trace w 0 p)).
Proof.
  intros Hf Hs. rewrite (coord_prefix _ _ _ Hs), List.filter_app, filter_filter_coord by done.
  split; [rewrite length_app; lia|].
  unfold exit_code, coord_rest. destruct (st_main s); intros [? [=]].
  by rewrite app_nil_r.
Qed.

(** What holds before an event of the main goroutine in its program holds
    before it in every history. *)
Lemma each_prefix_reachable w p s test Q l1 ev l2 :
  (∀ l, test (List.filter is_coord l) = test l) ->
  (∀ ev, Q ev = true -> is_coord ev = true) ->
  each_prefix test Q [] (coord_trace w 0 p) = true ->
  reachable w p s -> st_trace s = l1 ++ ev :: l2 -> Q ev = true ->
  test l1 = true.
Proof.
  intros Htest HQ Hch Hs Htr Hev. pose proof (coord_prefix _ _ _ Hs) as Hct.
  rewrite Htr, List.filter_app in Hct. simpl in Hct. rewrite (HQ _ Hev) in Hct.
  rewrite <- app_assoc in Hct. simpl in Hct.
  pose proof (each_prefix_spec _ _ _ _ Hch _ _ _ Hct Hev) as Hin.
  simpl in Hin. by rewrite Htest in Hin.
Qed.

(** The same before any event of a worker, for an order of events of the main
    goroutine that holds before every start of a worker. *)
Lemma in_order_before_worker w p s ps l1 ev l2 :
  Forall (fun q : Event -> bool => ∀ ev, q ev = true -> is_coord ev = true) ps ->
  each_prefix (in_order ps) is_go [] (coord_trace w 0 p) = true ->
  reachable w p s -> st_trace s = l1 ++ ev :: l2 -> is_worker ev = true ->
  in_order ps l1 = true.
Proof.
  intros Hps Hch Hs Htr Hw.
  assert (Hgo : ∀ a wk cli c b, st_trace s = a ++ EvGo wk cli c :: b -> in_order ps a = true).
  { intros a wk cli c b Ha.
    apply (each_prefix_reachable w p s (in_order ps) is_go a (EvGo wk cli c) b); try done.
    - intros l. by apply in_order_filter_coord.
    - by intros []. }
  destruct ev as [X c x|c|wk cli c|c|code|wk c|wk c]; try discriminate Hw.
  - by eapply Hgo.
  - destruct (work_after_go w p s wk c Hs l1 _ l2 Htr eq_refl) as (y & Hy & cli & ->).
    apply list_elem_of_split in Hy as (a & b & ->).
    apply in_order_app_l. eapply (Hgo a). rewrite Htr, <- app_assoc. done.
  - destruct (signal_after_go w p s wk c Hs l1 _ l2 Htr eq_refl) as (y & Hy & cli & ->).
    apply list_elem_of_split in Hy as (a & b & ->).
    apply in_order_app_l. eapply (Hgo a). rewrite Htr, <- app_assoc. done.
Qed.

Lemma exited_coord w p s code :
  reachable w p s -> st_main s = Exited code ->
  List.filter is_coord (st_trace s) = coord_trace w 0 p.
Proof.
  intros Hs Hm. rewrite (coord_prefix _ _ _ Hs). unfold coord_rest.
  by rewrite Hm, app_nil_r.
Qed.

Lemma in_order_exited w p s code ps :
  Forall (fun q : Event -> bool => ∀ ev, q ev = true -> is_coord ev = true) ps ->
  reachable w p s -> st_main s = Exited code ->
  in_order ps (st_trace s) = in_order ps (coord_trace w 0 p).
Proof.
  intros Hps Hs Hm. rewrite <- (exited_coord _ _ _ _ Hs Hm).
  symmetry. by apply in_order_filter_coord.
Qed.

Lemma elem_exited w p s code ev :
  reachable w p s -> st_main s = Exited code ->
  ev ∈ coord_trace w 0 p -> ev ∈ st_trace s.
Proof.
  intros Hs Hm Hin. rewrite <- (exited_coord _ _ _ _ Hs Hm) in Hin.
  by apply elem_of_filter_coord in Hin as [Hin _].
Qed.

(** ** The paths of [main] *)

Lemma setLogger_is_call lvl : ∃ l, setLogger lvl = call (LogfSetLogger l).
Proof.
  unfold setLogger, setLoggerForProduction.
  destruct (String.eqb lvl "DEBUG"); [by eexists|].
  destruct (String.eqb lvl "WARNING" || String.eqb lvl "ERROR"); [by eexists|].
  destruct (String.eqb lvl "INFO"); by eexists.
Qed.

(** Splits a goal about [main] into one goal per path: the world is opened
    and each error that [main] tests is taken as nil and as non-nil. *)
Ltac main_paths w lvl :=
  let l := fresh "logger" in
  let Hl := fresh "Hlogger" in
  destruct (setLogger_is_call lvl) as [l Hl];
  unfold main; rewrite Hl; clear Hl;
  destruct w as [[cfg e1] [mgr e2] sch e3 drv [be e4] [cl e5] [ctx cancel] mcfg wm
                 e6 e7 e8 e9 stop e10 [cli e11] work];
  cbn -[Z.mul];
  repeat match goal with
         | |- context [if_err ?e _] => destruct e; cbn -[Z.mul]
         | |- context [match ?e with Some _ => _ | None => _ end] => destruct e; cbn -[Z.mul]
         end.

Ltac elem_search :=
  repeat first [apply list_elem_of_here | apply list_elem_of_further].

Ltac coord_preds :=
  repeat constructor; intros ev; destruct ev as [? c ?| | | | | |]; try done.

Lemma main_recv_guarded w lvl : recv_guarded (coord_trace w 0 (main lvl)).
Proof. apply recv_guardedb_sound. main_paths w lvl; reflexivity. Qed.

(** On every schedule [main] comes to its end. *)
Lemma main_inevitably w lvl (Q : State -> Prop) :
  (∀ s code, reachable w (main lvl) s -> st_main s = Exited code -> Q s) ->
  Inevitably w Q (init (main lvl)).
Proof. apply inevitably_intro, main_recv_guarded. Qed.

Lemma main_fails_fast w lvl : fails_fast (coord_trace w 0 (main lvl)).
Proof.
  main_paths w lvl; repeat split; intros msg e' Hmsg He; simplify_eq/=; try done.
Qed.

(** Where no worker is ever started, a failed fatal call is followed by its
    error record and the exit only. *)
Lemma fails_fast_reachable w lvl s l1 ev l2 msg e :
  reachable w (main lvl) s ->
  forallb (fun ev => negb (is_go ev)) (coord_trace w 0 (main lvl)) = true ->
  st_trace s = l1 ++ ev :: l2 ->
  fatal_message ev = Some msg -> ev_error ev = Some e ->
  l2 `prefix_of` [EvCall (LogError "entrypoint" e msg) tt; EvExit 1].
Proof.
  intros Hs Hnogo Htr Hmsg He.
  pose proof (no_go_no_worker _ _ _ Hs Hnogo) as Hnw.
  pose proof (coord_prefix _ _ _ Hs) as Hct.
  rewrite filter_coord_all in Hct by (intros; by apply Hnw).
  rewrite Htr, <- app_assoc in Hct. simpl in Hct.
  rewrite <- (fails_fast_spec _ _ _ _ _ _ (main_fails_fast w lvl) Hct Hmsg He).
  by apply prefix_app_r.
Qed.

Lemma main_fatal_facts w lvl st e :
  fatal st = true -> step_error w st = Some e ->
  forallb (fun ev => negb (is_run ev) && negb (is_worker ev) && within st ev)
          (coord_trace w 0 (main lvl)) = true
  ∧ final_code (coord_trace w 0 (main lvl)) = Some 1%Z.
Proof.
  intros Hf He. revert He.
  destruct st; try discriminate Hf; clear Hf;
    main_paths w lvl; intros He; try discriminate He; split; reflexivity.
Qed.

Lemma main_cleanup_facts w lvl :
  let tr := coord_trace w 0 (main lvl) in
  implb (existsb is_cleanup_client_ok tr)
        (existsb (is_recv syncCleaned) tr && existsb (is_recv templatesCleaned) tr) = true
  ∧ forallb go_matches tr = true.
Proof. main_paths w lvl; split; reflexivity. Qed.

(** If the process has exited after the cleanup client was built, each
    worker's signal fired and was received before the exit. *)
Lemma exit_after_both_observed w lvl s pre code :
  reachable w (main lvl) s ->
  st_trace s = pre ++ [EvExit code] ->
  existsb is_cleanup_client_ok pre = true ->
  ∀ wk, observed wk pre.
Proof.
  intros Hs Htr Hok.
  destruct (exit_event_last _ _ _ _ _ _ Hs Htr) as [_ Hm].
  destruct (main_cleanup_facts w lvl) as [Hrecv Hgo]. cbv zeta in *.
  assert (Hpre : ∀ ev, ev ∈ pre -> is_coord ev = true -> ev ∈ coord_trace w 0 (main lvl)).
  { intros ev Hin Hc. apply (coord_event_in _ _ _ _ Hs); [|done].
    rewrite Htr. apply elem_of_app. by left. }
  assert (Hok' : existsb is_cleanup_client_ok (coord_trace w 0 (main lvl)) = true).
  { apply existsb_elem in Hok as (ev & Hin & Hev). apply (elem_existsb _ _ ev); [|done].
    apply Hpre; [done|]. by destruct ev. }
  rewrite Hok' in Hrecv. simpl in Hrecv.
  assert (Hin : ∀ c, existsb (is_recv c) (coord_trace w 0 (main lvl)) = true -> EvRecv c ∈ pre).
  { intros c Hc. apply existsb_elem in Hc as (ev & Hev & ->%is_recv_eq).
    destruct (exited_trace _ _ _ _ Hs Hm) as (pre' & Hpre' & _ & Hct & _).
    rewrite Htr in Hpre'. apply app_inj_tail in Hpre' as [<- _].
    rewrite Hct in Hev. apply elem_of_app in Hev as [Hev|Hev].
    - by apply elem_of_filter_coord in Hev as [Hev _].
    - apply list_elem_of_singleton in Hev. discriminate Hev. }
  intros wk.
  assert (Hc : EvRecv (worker_chan wk) ∈ pre).
  { apply andb_prop in Hrecv as [H0 H1]. destruct wk; by apply Hin. }
  apply list_elem_of_split in Hc as (l1 & l3 & ->).
  rewrite <- app_assoc in Htr. simpl in Htr.
  destruct (recv_observed _ _ _ _ _ _ Hs Htr) as (wk' & cli & a & b & -> & Hstart).
  assert (wk' = wk) as ->.
  { assert (Hg : EvGo wk' cli (worker_chan wk) ∈ coord_trace w 0 (main lvl)).
    { apply Hpre; [|done]. rewrite <- !app_assoc. apply elem_of_app. by left. }
    apply (forallb_elem _ _ _ Hgo) in Hg. simpl in Hg. apply Nat.eqb_eq in Hg.
    by destruct wk, wk'. }
  exists (worker_chan wk), a, b, l3. by rewrite <- app_assoc.
Qed.

Lemma main_final_code w lvl :
  final_code (coord_trace w 0 (main lvl)) = Some (if clean w then 0 else 1)%Z.
Proof. main_paths w lvl; reflexivity. Qed.

Lemma main_reaches_cleanup w lvl :
  implb (setup_ok w && nil_error (snd (w_k8sCliNew w)))
        (existsb is_cleanup_client_ok (coord_trace w 0 (main lvl))) = true.
Proof. main_paths w lvl; reflexivity. Qed.

(** What holds of a state in which [main] has ended. *)
Lemma main_exited w lvl s code :
  reachable w (main lvl) s -> st_main s = Exited code ->
  ∃ pre, st_trace s = pre ++ [EvExit code]
       ∧ coord_trace w 0 (main lvl) = List.filter is_coord pre ++ [EvExit code]
       ∧ code = (if clean w then 0 else 1)%Z
       ∧ (setup_succeeds w -> snd (w_k8sCliNew w) = None -> ∀ wk, observed wk pre).
Proof.
  intros Hs Hm. destruct (exited_trace _ _ _ _ Hs Hm) as (pre & Htr & _ & Hct & Hfin).
  exists pre. repeat split; try done.
  - rewrite main_final_code in Hfin. congruence.
  - intros Hsetup Hcli. apply (exit_after_both_observed w lvl s pre code Hs Htr).
    pose proof (main_reaches_cleanup w lvl) as Hr.
    apply setup_ok_spec in Hsetup. apply nil_error_spec in Hcli.
    rewrite Hsetup, Hcli, Hct in Hr. simpl in Hr.
    rewrite existsb_app in Hr. simpl in Hr. rewrite !orb_false_r in Hr.
    by rewrite existsb_filter_coord in Hr by (by intros []).
Qed.

Lemma main_cancel_facts w lvl :
  let tr := coord_trace w 0 (main lvl) in
  beforeb is_run is_cancel false tr = true
  ∧ length (List.filter is_run tr) ≤ 1
  ∧ List.filter is_cancel tr
    = List.map (fun _ => EvCall (CallCancel (snd (w_withCancel w))) tt) (List.filter is_run tr)
  ∧ (setup_ok w = true -> length (List.filter is_run tr) = 1).
Proof. main_paths w lvl; repeat split; simpl; try lia; try done. Qed.

Lemma main_drain_facts w lvl :
  each_prefix (in_order [is_run; is_cancel; is_drain]) is_go [] (coord_trace w 0 (main lvl)) = true.
Proof. main_paths w lvl; reflexivity. Qed.

Lemma main_run_failure_facts w lvl e :
  setup_ok w = true -> w_mgrStart w = Some e ->
  let tr := coord_trace w 0 (main lvl) in
  EvCall (LogError "entrypoint" e "unable to run the manager") tt ∈ tr
  ∧ in_order [is_run; is_error_log "unable to run the manager"; is_cancel; is_drain;
              is_cleanup_client] tr = true.
Proof.
  intros Hok He. revert Hok He.
  main_paths w lvl; intros Hok He; try discriminate Hok; try discriminate He;
    simplify_eq/=; (split; [elem_search|reflexivity]).
Qed.

Lemma main_cleanup_client_failure_facts w lvl e :
  setup_ok w = true -> snd (w_k8sCliNew w) = Some e ->
  let tr := coord_trace w 0 (main lvl) in
  forallb (fun ev => negb (is_go ev)) tr = true
  ∧ EvCall (LogError "entrypoint" e "unable to create cleanup client") tt ∈ tr
  ∧ in_order [is_run; is_cancel; is_drain; is_cleanup_client;
              is_error_log "unable to create cleanup client"] tr = true.
Proof.
  intros Hok He. revert Hok He.
  main_paths w lvl; intros Hok He; try discriminate Hok; try discriminate He;
    simplify_eq/=; (split; [reflexivity|split; [elem_search|reflexivity]]).
Qed.

Lemma main_client_failure_facts w lvl e :
  steps_before_client_ok w = true ->
  step_error w PolicyClientConstruction = Some e ->
  let tr := coord_trace w 0 (main lvl) in
  EvCall (LogError "entrypoint" e "unable to set up OPA client") tt ∈ tr
  ∧ in_order [is_step PolicyClientConstruction; is_error_log "unable to set up OPA client";
              is_step WatchManagerConstruction; is_step ControllerRegistration] tr = true
  ∧ (setup_ok w = true ->
     in_order [is_step PolicyClientConstruction; is_error_log "unable to set up OPA client";
               is_step WatchManagerConstruction; is_step ControllerRegistration;
               is_step WebhookRegistration; is_step AuditRegistration;
               is_step UpgradeRegistration; is_run] tr = true).
Proof.
  intros Hok He. revert Hok He.
  main_paths w lvl; intros Hok He; try discriminate Hok; try discriminate He;
    simplify_eq/=; (split; [elem_search|split; [reflexivity|]]);
    intros Hs; try discriminate Hs; reflexivity.
Qed.

Lemma main_scoped w lvl : scoped [] (coord_trace w 0 (main lvl)).
Proof.
  main_paths w lvl; repeat split; intros h Hh;
    repeat (apply elem_of_cons in Hh as [->|Hh]; [elem_search|]);
    by apply elem_of_nil in Hh.
Qed.

Lemma main_setup_order_facts w lvl :
  let tr := coord_trace w 0 (main lvl) in
  steps_of tr `prefix_of` setup_order
  ∧ each_prefix setup_complete is_run [] tr = true.
Proof. main_paths w lvl; (split; [by eexists|reflexivity]). Qed.

Lemma main_steps_run w lvl :
  steps_of (coord_trace w 0 (main lvl)) = steps_until_failure w setup_order.
Proof. main_paths w lvl; reflexivity. Qed.

Lemma steps_until_failure_all w sts :
  setup_succeeds w -> steps_until_failure w sts = sts.
Proof.
  intros Hok. induction sts as [|st sts IH]; [done|]. simpl. rewrite IH.
  destruct (step_error w st) eqn:He; [|done].
  destruct (fatal st) eqn:Hf; [|done]. rewrite (Hok st Hf) in He. discriminate He.
Qed.

(** ** Sample runs *)

(** The events of the main goroutine when every call succeeds. *)
Example main_trace_ok :
  coord_trace world_ok 0 (main "INFO") =
  [EvCall (LogfSetLogger (logf_ZapLogger false)) tt;
   EvCall (LogInfo "entrypoint" "setting up client for manager") tt;
   EvCall ConfigGetConfig (RestConfigAt 1, None);
   EvCall (LogInfo "entrypoint" "setting up manager") tt;
   EvCall (ManagerNew (RestConfigAt 1)) (ManagerAt 2, None);
   EvCall (LogInfo "entrypoint" "Registering Components.") tt;
   EvCall (LogInfo "entrypoint" "setting up scheme") tt;
   EvCall (MgrGetScheme (ManagerAt 2)) (SchemeAt 3);
   EvCall (ApisAddToScheme (SchemeAt 3)) None;
   EvCall (LocalNew false) (DriverAt 4);
   EvCall (OpaNewBackend (DriverAt 4)) (BackendAt 5, None);
   EvCall (BackendNewClient (BackendAt 5)) (OpaClientAt 6, None);
   EvCall ContextWithCancel (ContextAt 7, CancelFuncAt 8);
   EvCall (MgrGetConfig (ManagerAt 2)) (RestConfigAt 1);
   EvCall (WatchNew (ContextAt 7) (RestConfigAt 1)) (WatchManagerAt 9);
   EvCall (LogInfo "entrypoint" "Setting up controller") tt;
   EvCall (ControllerAddToManager (ManagerAt 2) (OpaClientAt 6) (WatchManagerAt 9)) None;
   EvCall (LogInfo "entrypoint" "setting up webhooks") tt;
   EvCall (WebhookAddToManager (ManagerAt 2) (OpaClientAt 6)) None;
   EvCall (LogInfo "entrypoint" "setting up audit") tt;
   EvCall (AuditAddToManager (ManagerAt 2) (OpaClientAt 6)) None;
   EvCall (LogInfo "entrypoint" "setting up upgrade") tt;
   EvCall (UpgradeAddToManager (ManagerAt 2)) None;
   EvCall (LogInfo "entrypoint" "Starting the Cmd.") tt;
   EvCall SignalsSetupSignalHandler (StopChAt 10);
   EvCall (MgrStart (ManagerAt 2) (StopChAt 10)) None;
   EvCall (CallCancel (CancelFuncAt 8)) tt;
   EvCall (TimeSleep 5000000000%Z) tt;
   EvCall (LogInfo "entrypoint" "removing finalizers...") tt;
   EvCall (MgrGetConfig (ManagerAt 2)) (RestConfigAt 1);
   EvCall (K8sCliNew (RestConfigAt 1)) (K8sClientAt 11, None);
   EvMakeChan 0;
   EvGo RemoveAllConfigFinalizers (K8sClientAt 11) 0;
   EvMakeChan 1;
   EvGo RemoveAllFinalizers (K8sClientAt 11) 1;
   EvRecv 0;
   EvRecv 1;
   EvCall (LogInfo "entrypoint" "finalizers removed") tt;
   EvExit 0].
Proof. reflexivity. Qed.

(** A staggered run: the second worker signals first, the first worker three
    steps later; the main goroutine receives both signals, then exits. *)
Example staggered_run :
  let s := run_sched world_ok sched_staggered (init (main "INFO")) in
  drop 31 (st_trace s) =
  [EvMakeChan 0;
   EvGo RemoveAllConfigFinalizers (K8sClientAt 11) 0;
   EvMakeChan 1;
   EvGo RemoveAllFinalizers (K8sClientAt 11) 1;
   EvWork RemoveAllFinalizers 1;
   EvSignal RemoveAllFinalizers 1;
   EvWork RemoveAllConfigFinalizers 0;
   EvWork RemoveAllConfigFinalizers 0;
   EvWork RemoveAllConfigFinalizers 0;
   EvSignal RemoveAllConfigFinalizers 0;
   EvRecv 0;
   EvRecv 1;
   EvCall (LogInfo "entrypoint" "finalizers removed") tt;
   EvExit 0]
  ∧ exit_code s = Some 0%Z.
Proof. split; vm_compute; reflexivity. Qed.

(** While no worker is scheduled the main goroutine stays in its first
    receive, however often it is picked. *)
Example main_waits :
  let s := run_sched world_ok (replicate 100 TMain) (init (main "INFO")) in
  exit_code s = None ∧ last (st_trace s) = Some (EvGo RemoveAllFinalizers (K8sClientAt 11) 1).
Proof. split; vm_compute; reflexivity. Qed.

(** Scheme registration fails: the error record, then the exit. *)
Example scheme_failure_run :
  let s := run_sched world_scheme_fails (replicate 40 TMain) (init (main "INFO")) in
  drop 7 (st_trace s) =
  [EvCall (MgrGetScheme (ManagerAt 2)) (SchemeAt 3);
   EvCall (ApisAddToScheme (SchemeAt 3)) (Some "no kind registered");
   EvCall (LogError "entrypoint" "no kind registered" "unable add APIs to scheme") tt;
   EvExit 1]
  ∧ exit_code s = Some 1%Z.
Proof. split; vm_compute; reflexivity. Qed.

(** * Properties of [main] *)

(** ** Failure of a setup step *)

(** C1.  If a setup step whose failure branch exits (connection discovery,
    manager construction, scheme registration, policy backend construction,
    controller, webhook, audit or upgrade registration) fails, then on every
    schedule the process exits with status 1, and in every history of the
    process: no setup step later than the failed one has run, the run call was
    never made, no cleanup worker was started or ran, and the failing call is
    followed by nothing but the error record and the exit. *)
Theorem setup_failure_exits_at_once (w : World) (logLevel : string)
        (st : SetupStep) (e : string) :
  fatal st = true ->
  step_error w st = Some e ->
  Inevitably w (fun s => exit_code s = Some 1%Z) (init (main logLevel)) ∧
  ∀ s, reachable w (main logLevel) s ->
    (∀ ev st', ev ∈ st_trace s -> ev_setup_step ev = Some st' ->
       step_index st' ≤ step_index st) ∧
    (∀ ev, ev ∈ st_trace s -> is_run ev = false) ∧
    (∀ ev, ev ∈ st_trace s -> is_worker ev = false) ∧
    (∀ l1 ev l2 msg e', st_trace s = l1 ++ ev :: l2 ->
       fatal_message ev = Some msg -> ev_error ev = Some e' ->
       l2 `prefix_of` [EvCall (LogError "entrypoint" e' msg) tt; EvExit 1]).
Proof.
  intros Hf He. destruct (main_fatal_facts w logLevel st e Hf He) as [Hall Hcode].
  assert (Hnogo : forallb (fun ev => negb (is_go ev)) (coord_trace w 0 (main logLevel)) = true).
  { apply forallb_forall. intros ev Hin. rewrite forallb_forall in Hall.
    specialize (Hall ev Hin). destruct ev; try done. }
  split.
  - apply main_inevitably. intros s code Hs Hm.
    destruct (exited_trace _ _ _ _ Hs Hm) as (pre & _ & _ & _ & Hfin).
    unfold exit_code. rewrite Hm. congruence.
  - intros s Hs. pose proof (no_go_no_worker _ _ _ Hs Hnogo) as Hnw.
    assert (Hin : ∀ ev, ev ∈ st_trace s ->
              negb (is_run ev) && negb (is_worker ev) && within st ev = true).
    { intros ev Hev. apply (forallb_elem _ _ _ Hall).
      apply (coord_event_in _ _ _ _ Hs Hev). by apply Hnw. }
    repeat split.
    + intros ev st' Hev Hst'. specialize (Hin ev Hev).
      apply andb_prop in Hin as [_ Hin]. unfold within in Hin. rewrite Hst' in Hin.
      by apply Nat.leb_le.
    + intros ev Hev. specialize (Hin ev Hev).
      apply andb_prop in Hin as [Hin _]. apply andb_prop in Hin as [Hin _].
      by apply negb_true_iff.
    + intros ev Hev. by apply Hnw.
    + intros l1 ev l2 msg e' Htr Hmsg He'. by eapply fails_fast_reachable.
Qed.

(** Scheme registration fails in [world_scheme_fails]. *)
Lemma setup_failure_exits_at_once_witness :
  Inevitably world_scheme_fails (fun s => exit_code s = Some 1%Z) (init (main "INFO")) ∧
  ∀ s, reachable world_scheme_fails (main "INFO") s ->
    (∀ ev st', ev ∈ st_trace s -> ev_setup_step ev = Some st' ->
       step_index st' ≤ step_index SchemeRegistration) ∧
    (∀ ev, ev ∈ st_trace s -> is_run ev = false) ∧
    (∀ ev, ev ∈ st_trace s -> is_worker ev = false) ∧
    (∀ l1 ev l2 msg e', st_trace s = l1 ++ ev :: l2 ->
       fatal_message ev = Some msg -> ev_error ev = Some e' ->
       l2 `prefix_of` [EvCall (LogError "entrypoint" e' msg) tt; EvExit 1]).
Proof.
  apply (setup_failure_exits_at_once world_scheme_fails "INFO" SchemeRegistration
           "no kind registered"); reflexivity.
Defined.

(** ** Both completion signals are awaited *)

(** C2.  In every history in which the cleanup client was built (the cleanup
    phase is reached), the exit, with whatever code, comes after both the
    sync-finalizer worker's signal and the constraint-template worker's
    signal have fired and been received by the main goroutine; this holds on
    every schedule and for every amount of work of either worker. *)
Theorem exit_waits_for_both_signals (w : World) (logLevel : string) (s : State)
        (pre : list Event) (code : Z) (post : list Event) :
  reachable w (main logLevel) s ->
  st_trace s = pre ++ EvExit code :: post ->
  existsb is_cleanup_client_ok pre = true ->
  observed RemoveAllConfigFinalizers pre ∧ observed RemoveAllFinalizers pre.
Proof.
  intros Hs Htr Hok.
  destruct (exit_event_last _ _ _ _ _ _ Hs Htr) as [-> _].
  split; by eapply exit_after_both_observed.
Qed.

(** The staggered run of [world_ok], which exits with code 0. *)
Lemma exit_waits_for_both_signals_witness :
  let s := run_sched world_ok sched_staggered (init (main "INFO")) in
  exit_code s = Some 0%Z ∧
  observed RemoveAllConfigFinalizers (removelast (st_trace s)) ∧
  observed RemoveAllFinalizers (removelast (st_trace s)).
Proof.
  split; [reflexivity|].
  apply (exit_waits_for_both_signals world_ok "INFO"
           (run_sched world_ok sched_staggered (init (main "INFO")))
           (removelast (st_trace (run_sched world_ok sched_staggered (init (main "INFO")))))
           0%Z []).
  - apply run_sched_reachable.
  - vm_compute. reflexivity.
  - vm_compute. reflexivity.
Defined.

(** ** The exit code *)

(** C3, amended.  On every schedule the process exits, with code 0 or 1.  The
    code is 0 exactly when no setup step whose failure is fatal fails
    (connection discovery, manager construction, scheme registration, policy
    backend construction, the four registrations), the run call returns no
    error and the cleanup client is built; a failed policy client construction
    does not change it.  Whenever setup succeeds and the cleanup client is
    built, also when the run call failed, both cleanup workers have run to
    completion before the exit. *)
Theorem exit_code_by_outcome (w : World) (logLevel : string) :
  Inevitably w
    (fun s => ∃ pre code, st_trace s = pre ++ [EvExit code] ∧ exit_code s = Some code ∧
       (code = 0 ∨ code = 1)%Z ∧
       (code = 0%Z <->
          setup_succeeds w ∧ w_mgrStart w = None ∧ snd (w_k8sCliNew w) = None) ∧
       (setup_succeeds w -> snd (w_k8sCliNew w) = None -> ∀ wk, observed wk pre))
    (init (main logLevel)).
Proof.
  apply main_inevitably. intros s code Hs Hm.
  destruct (main_exited _ _ _ _ Hs Hm) as (pre & Htr & _ & Hcode & Hobs).
  exists pre, code. split; [done|]. split; [unfold exit_code; by rewrite Hm|].
  split; [destruct (clean w); auto|]. split; [|done].
  rewrite <- clean_spec. subst code. by destruct (clean w).
Qed.

(** C3 as stated fails: with every setup step and the run call succeeding,
    and only the construction of the cleanup client failing, the process exits
    with code 1. *)
Lemma exit_code_counterexample :
  let w := world_cleanup_client_fails in
  (∀ st, step_error w st = None) ∧
  w_mgrStart w = None ∧
  exit_code (run_sched w (replicate 40 TMain) (init (main "INFO"))) = Some 1%Z ∧
  Inevitably w (fun s => exit_code s = Some 1%Z) (init (main "INFO")).
Proof.
  repeat split.
  - by intros [].
  - apply main_inevitably. intros s code Hs Hm.
    destruct (main_exited _ _ _ _ Hs Hm) as (pre & _ & _ & -> & _).
    unfold exit_code. by rewrite Hm.
Qed.

(** ** The watch lifetime *)

(** C4.  In every history the watch-lifetime cancellation [wmCancel] comes
    after the return of the run call, is the cancel function that
    [context.WithCancel] returned, and has been invoked at most once.  On every
    schedule the process exits, and by then the cancellation has been invoked
    exactly as many times as the run call has returned: once when setup
    succeeded, whether or not the run call returned an error, and never when
    the run call was not reached. *)
Theorem watch_cancel_once_after_run (w : World) (logLevel : string) :
  (∀ s, reachable w (main logLevel) s ->
     Before (fun ev => is_run ev = true) (fun ev => is_cancel ev = true) (st_trace s) ∧
     length (List.filter is_cancel (st_trace s)) ≤ 1 ∧
     (∀ ev, ev ∈ st_trace s -> is_cancel ev = true ->
        ev = EvCall (CallCancel (snd (w_withCancel w))) tt)) ∧
  Inevitably w
    (fun s => length (List.filter is_cancel (st_trace s))
              = length (List.filter is_run (st_trace s))
              ∧ (setup_succeeds w -> length (List.filter is_cancel (st_trace s)) = 1))
    (init (main logLevel)).
Proof.
  destruct (main_cancel_facts w logLevel) as (Hbefore & Hrun & Hcancel & Hsetup).
  cbv zeta in *.
  assert (Hlen : length (List.filter is_cancel (coord_trace w 0 (main logLevel)))
                 = length (List.filter is_run (coord_trace w 0 (main logLevel)))).
  { by rewrite Hcancel, length_map. }
  split.
  - intros s Hs. repeat split.
    + apply (Before_reachable _ _ _ _ _ Hs); [by apply beforeb_sound|apply is_cancel_coord].
    + destruct (count_reachable w _ s is_cancel is_cancel_coord Hs) as [Hle _]. lia.
    + intros ev Hin Hev.
      assert (Hct : ev ∈ List.filter is_cancel (coord_trace w 0 (main logLevel))).
      { apply list_elem_of_In, List.filter_In. split; [|done]. apply list_elem_of_In.
        apply (coord_event_in _ _ _ _ Hs Hin). by apply is_cancel_coord. }
      rewrite Hcancel in Hct. apply list_elem_of_In, in_map_iff in Hct as (? & <- & _).
      done.
  - apply main_inevitably. intros s code Hs Hm.
    assert (Hex : is_Some (exit_code s)) by (unfold exit_code; rewrite Hm; eauto).
    destruct (count_reachable w _ s is_cancel is_cancel_coord Hs) as [_ Hc].
    destruct (count_reachable w _ s is_run is_run_coord Hs) as [_ Hr].
    rewrite (Hc Hex), (Hr Hex). split; [done|].
    intros Hok%setup_ok_spec. rewrite Hlen. by apply Hsetup.
Qed.

(** ** Failure of the run call *)

(** C5, amended.  If setup succeeds and the run call returns an error, the
    error is recorded and the shutdown sequence is not cut short: on every
    schedule the process exits with status 1, and by then the error has been
    logged, the watch lifetime cancelled, the drain delay slept and the
    construction of the cleanup client attempted, in this order; if the
    cleanup client was built, both cleanup workers have also run to completion
    and their signals have been received before the exit. *)
Theorem run_failure_still_shuts_down (w : World) (logLevel : string) (e : string) :
  setup_succeeds w ->
  w_mgrStart w = Some e ->
  Inevitably w
    (fun s => ∃ pre, st_trace s = pre ++ [EvExit 1] ∧ exit_code s = Some 1%Z ∧
       EvCall (LogError "entrypoint" e "unable to run the manager") tt ∈ pre ∧
       in_order [is_run; is_error_log "unable to run the manager"; is_cancel; is_drain;
                 is_cleanup_client] pre = true ∧
       (snd (w_k8sCliNew w) = None -> ∀ wk, observed wk pre))
    (init (main logLevel)).
Proof.
  intros Hsetup He. apply main_inevitably. intros s code Hs Hm.
  destruct (main_exited _ _ _ _ Hs Hm) as (pre & Htr & Hct & Hcode & Hobs).
  assert (code = 1%Z) as ->.
  { subst code. unfold clean. rewrite He. simpl. by rewrite andb_false_r. }
  apply setup_ok_spec in Hsetup as Hok.
  destruct (main_run_failure_facts w logLevel e Hok He) as [Hlog Hord]. cbv zeta in *.
  exists pre. split; [done|]. split; [unfold exit_code; by rewrite Hm|].
  rewrite Hct in Hlog, Hord. split; [|split; [|by apply Hobs]].
  - apply elem_of_app in Hlog as [Hlog|Hlog].
    + by apply elem_of_filter_coord in Hlog as [Hlog _].
    + apply list_elem_of_singleton in Hlog. discriminate Hlog.
  - rewrite <- (in_order_filter_coord _ pre) by coord_preds.
    apply (in_order_snoc_exit _ _ 1%Z); [done|by repeat constructor|done].
Qed.

(** The run call fails in [world_run_fails]; the cleanup client is built. *)
Lemma run_failure_still_shuts_down_witness :
  Inevitably world_run_fails
    (fun s => ∃ pre, st_trace s = pre ++ [EvExit 1] ∧ exit_code s = Some 1%Z ∧
       EvCall (LogError "entrypoint" "leader election lost" "unable to run the manager") tt
         ∈ pre ∧
       in_order [is_run; is_error_log "unable to run the manager"; is_cancel; is_drain;
                 is_cleanup_client] pre = true ∧
       (snd (w_k8sCliNew world_run_fails) = None -> ∀ wk, observed wk pre))
    (init (main "INFO")).
Proof.
  apply (run_failure_still_shuts_down world_run_fails "INFO" "leader election lost").
  - intros st _. by destruct st.
  - reflexivity.
Defined.

(** C5 as stated fails: the run call returns an error, the cleanup client
    cannot be built, and the process exits with status 1 without either
    cleanup worker having been started. *)
Lemma run_failure_counterexample :
  let w := world_run_and_cleanup_client_fail in
  let s := run_sched w (replicate 40 TMain) (init (main "INFO")) in
  setup_succeeds w ∧
  w_mgrStart w = Some "leader election lost" ∧
  existsb is_run (st_trace s) = true ∧
  exit_code s = Some 1%Z ∧
  existsb is_worker (st_trace s) = false ∧
  Inevitably w (fun s' => exit_code s' = Some 1%Z ∧ existsb is_worker (st_trace s') = false)
             (init (main "INFO")).
Proof.
  repeat split.
  - intros st _. by destruct st.
  - apply main_inevitably. intros s code Hs Hm.
    destruct (main_exited _ _ _ _ Hs Hm) as (pre & _ & _ & -> & _).
    split; [unfold exit_code; by rewrite Hm|].
    apply existsb_none. intros ev Hin.
    by apply (no_go_no_worker _ _ _ Hs).
Qed.

(** ** The drain delay *)

(** C6.  Whenever a cleanup worker is started, runs a step or signals, the
    history before that event holds, in this order, the return of the run
    call, the watch cancellation and the return of
    [time.Sleep(5 * time.Second)]: no worker starts before the 5-second drain
    delay has elapsed. *)
Theorem workers_start_after_drain (w : World) (logLevel : string) (s : State)
        (l1 : list Event) (ev : Event) (l2 : list Event) :
  reachable w (main logLevel) s ->
  st_trace s = l1 ++ ev :: l2 ->
  is_worker ev = true ->
  in_order [is_run; is_cancel; is_drain] l1 = true.
Proof.
  intros Hs Htr Hw.
  apply (in_order_before_worker w (main logLevel) s _ l1 ev l2); try done.
  - repeat constructor; by intros [].
  - apply main_drain_facts.
Qed.

(** The start of the first worker in the staggered run of [world_run_fails]. *)
Lemma workers_start_after_drain_witness :
  let s := run_sched world_run_fails sched_staggered (init (main "INFO")) in
  in_order [is_run; is_cancel; is_drain] (take 33 (st_trace s)) = true.
Proof.
  apply (workers_start_after_drain world_run_fails "INFO"
           (run_sched world_run_fails sched_staggered (init (main "INFO")))
           (take 33 (st_trace (run_sched world_run_fails sched_staggered (init (main "INFO")))))
           (EvGo RemoveAllConfigFinalizers (K8sClientAt 11) 0)
           (drop 34 (st_trace (run_sched world_run_fails sched_staggered (init (main "INFO")))))).
  - apply run_sched_reachable.
  - vm_compute. reflexivity.
  - reflexivity.
Defined.

(** ** Log configuration *)

(** Closes a goal about one value of the flag: by computation, or because
    the hypotheses name another value. *)
Ltac by_cases_on_flag :=
  try done;
  try (intros; exfalso;
       by repeat match goal with H : _ ∨ _ |- _ => destruct H as [H|H] end);
  auto.

(** The claim as the specification has it fails at INFO, the default of the
    flag: [main] installs [logf.ZapLogger(false)], whose records are
    structured (JSON), where the specification has a human-readable
    format. *)
Lemma log_level_counterexample :
  ∃ logger,
    setLogger "INFO" = call (LogfSetLogger logger) ∧
    logger_format logger = Structured ∧
    spec_format "INFO" = HumanReadable ∧
    logger_format logger ≠ spec_format "INFO".
Proof. exists (logf_ZapLogger false). by repeat split. Qed.

(** C7, amended.  For every value of the log-level flag, [main]'s switch makes
    exactly one call, [logf.SetLogger], and goes on: it cannot fail.  DEBUG
    installs [logf.ZapLogger(true)]: human-readable, verbose, threshold
    [DebugLevel], no sampling.  WARNING and ERROR install the logger of
    [setLoggerForProduction]: structured (JSON production encoder) on stderr,
    threshold [WarnLevel], stack traces from [ErrorLevel], sampler of 100
    first and 100 thereafter per second.  INFO and every other string install
    [logf.ZapLogger(false)]: structured as well, on stderr, threshold
    [InfoLevel], stack traces from [WarnLevel], the same sampler.  So the
    format is the one the specification gives exactly for DEBUG, WARNING and
    ERROR. *)
Theorem log_level_mapping (w : World) (logLevel : string) :
  ∃ logger,
    setLogger logLevel = call (LogfSetLogger logger) ∧
    coord_trace w 0 (main logLevel) !! 0 = Some (EvCall (LogfSetLogger logger) tt) ∧
    (logLevel = "DEBUG" ->
       logger = logf_ZapLogger true ∧
       logger_format logger = HumanReadable ∧
       zl_verbose (logger_zap logger) = true ∧
       zl_sink (logger_zap logger) = Stderr ∧
       zl_level (logger_zap logger) = DebugLevel ∧
       sampler_of (zl_options (logger_zap logger)) = None) ∧
    (logLevel = "WARNING" ∨ logLevel = "ERROR" ->
       logger = zapr_NewLogger
                  {| zl_encoder := NewJSONEncoder_Production;
                     zl_verbose := false;
                     zl_sink := Stderr;
                     zl_level := WarnLevel;
                     zl_options := [AddStacktrace ErrorLevel;
                                    WrapCore_NewSampler time_Second 100 100;
                                    AddCallerSkip 1;
                                    ErrorOutput Stderr] |} ∧
       logger_format logger = Structured ∧
       zl_level (logger_zap logger) = WarnLevel ∧
       stacktrace_of (zl_options (logger_zap logger)) = Some ErrorLevel ∧
       sampler_of (zl_options (logger_zap logger)) = Some (time_Second, 100, 100)%Z) ∧
    (logLevel = "INFO" -> logger = logf_ZapLogger false) ∧
    (logLevel ≠ "DEBUG" -> logLevel ≠ "WARNING" -> logLevel ≠ "ERROR" ->
       logger = logf_ZapLogger false ∧
       logger_format logger = Structured ∧
       zl_verbose (logger_zap logger) = false ∧
       zl_sink (logger_zap logger) = Stderr ∧
       zl_level (logger_zap logger) = InfoLevel ∧
       stacktrace_of (zl_options (logger_zap logger)) = Some WarnLevel ∧
       sampler_of (zl_options (logger_zap logger)) = Some (time_Second, 100, 100)%Z) ∧
    (logger_format logger = spec_format logLevel
     <-> logLevel = "DEBUG" ∨ logLevel = "WARNING" ∨ logLevel = "ERROR").
Proof.
  unfold main, setLogger, setLoggerForProduction, spec_format.
  destruct (String.eqb_spec logLevel "DEBUG") as [->|Hd].
  { eexists. repeat split; by_cases_on_flag. }
  destruct (String.eqb_spec logLevel "WARNING") as [->|Hw].
  { eexists. repeat split; by_cases_on_flag. }
  destruct (String.eqb_spec logLevel "ERROR") as [->|He].
  { eexists. repeat split; by_cases_on_flag. }
  simpl. destruct (String.eqb_spec logLevel "INFO") as [->|Hi].
  { eexists. repeat split; by_cases_on_flag. }
  eexists. repeat split; by_cases_on_flag.
Qed.

(** ** Failure of the policy client *)

(** C8.  If the steps before it succeed and the construction of the policy
    client fails, the error is logged and startup goes on: on every schedule,
    by the time the process exits, the error record is followed by the
    construction of the watch manager and the registration of the controllers;
    and when the registrations succeed, by all four registrations and the run
    call. *)
Theorem policy_client_failure_is_logged_only (w : World) (logLevel : string) (e : string) :
  (∀ st, fatal st = true -> step_index st < step_index PolicyClientConstruction ->
         step_error w st = None) ->
  step_error w PolicyClientConstruction = Some e ->
  Inevitably w
    (fun s =>
       EvCall (LogError "entrypoint" e "unable to set up OPA client") tt ∈ st_trace s ∧
       in_order [is_step PolicyClientConstruction;
                 is_error_log "unable to set up OPA client";
                 is_step WatchManagerConstruction;
                 is_step ControllerRegistration] (st_trace s) = true ∧
       (setup_succeeds w ->
        in_order [is_step PolicyClientConstruction;
                  is_error_log "unable to set up OPA client";
                  is_step WatchManagerConstruction;
                  is_step ControllerRegistration; is_step WebhookRegistration;
                  is_step AuditRegistration; is_step UpgradeRegistration;
                  is_run] (st_trace s) = true))
    (init (main logLevel)).
Proof.
  intros Hbefore He.
  assert (Hok : steps_before_client_ok w = true).
  { unfold steps_before_client_ok.
    rewrite (Hbefore ConnectionDiscovery), (Hbefore ManagerConstruction),
      (Hbefore SchemeRegistration), (Hbefore PolicyBackendConstruction);
      simpl; (done || lia). }
  destruct (main_client_failure_facts w logLevel e Hok He) as (Hlog & Hord & Hall).
  cbv zeta in *. apply main_inevitably. intros s code Hs Hm. split; [|split].
  - by eapply elem_exited.
  - rewrite (in_order_exited w _ s code) by (done || coord_preds). done.
  - intros Hsetup%setup_ok_spec.
    rewrite (in_order_exited w _ s code) by (done || coord_preds). by apply Hall.
Qed.

(** Only the policy client fails in [world_client_fails]. *)
Lemma policy_client_failure_is_logged_only_witness :
  Inevitably world_client_fails
    (fun s =>
       EvCall (LogError "entrypoint" "target rejected" "unable to set up OPA client") tt
         ∈ st_trace s ∧
       in_order [is_step PolicyClientConstruction;
                 is_error_log "unable to set up OPA client";
                 is_step WatchManagerConstruction;
                 is_step ControllerRegistration] (st_trace s) = true ∧
       (setup_succeeds world_client_fails ->
        in_order [is_step PolicyClientConstruction;
                  is_error_log "unable to set up OPA client";
                  is_step WatchManagerConstruction;
                  is_step ControllerRegistration; is_step WebhookRegistration;
                  is_step AuditRegistration; is_step UpgradeRegistration;
                  is_run] (st_trace s) = true))
    (init (main "INFO")).
Proof.
  apply (policy_client_failure_is_logged_only world_client_fails "INFO" "target rejected").
  - intros st Hf _. by destruct st.
  - reflexivity.
Defined.

(** ** Order of the setup steps *)

(** C9.  The setup steps are executed, in the order connection discovery,
    manager construction, scheme registration, policy backend construction,
    policy client construction, watch-manager construction, controller,
    webhook, audit and upgrade registration: on every schedule the process
    exits having run, in this order and each once, the steps up to and
    including the first whose failure is fatal and which fails, hence all ten
    when none does.  In every history the steps run so far are an initial
    part of the ten; when the run call returns, all ten have run; and every
    handle an event consumes was produced by an earlier event of the
    history. *)
Theorem setup_steps_in_order (w : World) (logLevel : string) :
  Inevitably w
    (fun s => steps_of (st_trace s) = steps_until_failure w setup_order)
    (init (main logLevel)) ∧
  (setup_succeeds w ->
     Inevitably w (fun s => steps_of (st_trace s) = setup_order) (init (main logLevel))) ∧
  ∀ s, reachable w (main logLevel) s ->
    steps_of (st_trace s) `prefix_of` setup_order ∧
    (∀ l1 ev l2, st_trace s = l1 ++ ev :: l2 -> is_run ev = true ->
       steps_of l1 = setup_order) ∧
    (∀ l1 ev l2 h, st_trace s = l1 ++ ev :: l2 -> h ∈ ev_consumes ev ->
       ∃ ev', ev' ∈ l1 ∧ h ∈ ev_produces ev').
Proof.
  assert (Hrun : ∀ s code, reachable w (main logLevel) s -> st_main s = Exited code ->
                   steps_of (st_trace s) = steps_until_failure w setup_order).
  { intros s code Hs Hm.
    by rewrite <- steps_of_filter_coord, (exited_coord _ _ _ _ Hs Hm), main_steps_run. }
  split; [|split].
  { apply main_inevitably. exact Hrun. }
  { intros Hok. apply main_inevitably. intros s code Hs Hm.
    rewrite (Hrun s code Hs Hm). by apply steps_until_failure_all. }
  intros s Hs. destruct (main_setup_order_facts w logLevel) as [Hpre Hrun']. cbv zeta in *.
  pose proof (coord_prefix _ _ _ Hs) as Hct. repeat split.
  - rewrite Hct, steps_of_app, steps_of_filter_coord in Hpre.
    etrans; [|exact Hpre]. by apply prefix_app_r.
  - intros l1 ev l2 Htr Hev.
    apply (bool_decide_unpack (steps_of l1 = setup_order)), Is_true_true.
    apply (each_prefix_reachable w (main logLevel) s setup_complete is_run l1 ev l2);
      try done.
    + intros l. unfold setup_complete. by rewrite steps_of_filter_coord.
    + apply is_run_coord.
  - intros l1 ev l2 h Htr Hh.
    assert (Hc : is_coord ev = true).
    { destruct ev; try done; by apply elem_of_nil in Hh. }
    rewrite Htr, List.filter_app in Hct. simpl in Hct. rewrite Hc, <- app_assoc in Hct.
    destruct (scoped_spec _ _ _ _ _ _ (main_scoped w logLevel) Hct Hh)
      as [Hin|(ev' & Hev' & Hp)]; [by apply elem_of_nil in Hin|].
    exists ev'. split; [|done]. by apply elem_of_filter_coord in Hev' as [? _].
Qed.

(** [world_ok], in which every step succeeds, and its staggered run. *)
Lemma setup_steps_in_order_witness :
  Inevitably world_ok (fun s => steps_of (st_trace s) = setup_order) (init (main "INFO")) ∧
  let s := run_sched world_ok sched_staggered (init (main "INFO")) in
  steps_of (st_trace s) = setup_order ∧
  steps_of (st_trace s) `prefix_of` setup_order ∧
  (∀ l1 ev l2, st_trace s = l1 ++ ev :: l2 -> is_run ev = true ->
     steps_of l1 = setup_order) ∧
  (∀ l1 ev l2 h, st_trace s = l1 ++ ev :: l2 -> h ∈ ev_consumes ev ->
     ∃ ev', ev' ∈ l1 ∧ h ∈ ev_produces ev').
Proof.
  destruct (setup_steps_in_order world_ok "INFO") as (_ & Hall & Hsafe).
  split; [|split].
  - apply Hall. intros st _. by destruct st.
  - reflexivity.
  - apply Hsafe, run_sched_reachable.
Defined.

(** ** Failure of the cleanup client *)

(** C10.  If setup succeeds and, after the run call has returned (with or
    without error) and the drain delay has been slept, the construction of the
    cleanup client fails, then on every schedule the process exits with status
    1, having logged the error; no cleanup worker is ever started, and the
    failed call is followed by nothing but the error record and the exit. *)
Theorem cleanup_client_failure_exits (w : World) (logLevel : string) (e : string) :
  setup_succeeds w ->
  snd (w_k8sCliNew w) = Some e ->
  Inevitably w
    (fun s => exit_code s = Some 1%Z ∧
       EvCall (LogError "entrypoint" e "unable to create cleanup client") tt ∈ st_trace s ∧
       in_order [is_run; is_cancel; is_drain; is_cleanup_client;
                 is_error_log "unable to create cleanup client"] (st_trace s) = true)
    (init (main logLevel)) ∧
  ∀ s, reachable w (main logLevel) s ->
    (∀ ev, ev ∈ st_trace s -> is_worker ev = false) ∧
    (∀ l1 ev l2, st_trace s = l1 ++ ev :: l2 -> is_cleanup_client ev = true ->
       l2 `prefix_of` [EvCall (LogError "entrypoint" e "unable to create cleanup client") tt;
                       EvExit 1]).
Proof.
  intros Hsetup He. apply setup_ok_spec in Hsetup as Hok.
  destruct (main_cleanup_client_failure_facts w logLevel e Hok He) as (Hnogo & Hlog & Hord).
  cbv zeta in *. split.
  - apply main_inevitably. intros s code Hs Hm.
    destruct (main_exited _ _ _ _ Hs Hm) as (pre & _ & _ & Hcode & _).
    assert (code = 1%Z) as ->.
    { subst code. unfold clean. rewrite He. simpl. by rewrite andb_false_r. }
    split; [unfold exit_code; by rewrite Hm|]. split.
    + by eapply elem_exited.
    + rewrite (in_order_exited w _ s 1%Z) by (done || coord_preds). done.
  - intros s Hs. split; [intros ev Hin; by apply (no_go_no_worker _ _ _ Hs)|].
    intros l1 ev l2 Htr Hev.
    assert (Herr : ev_error ev = Some e).
    { assert (Hin : ev ∈ coord_trace w 0 (main logLevel)).
      { apply (coord_event_in _ _ _ _ Hs); [|by destruct ev].
        rewrite Htr. apply elem_of_app. right. apply list_elem_of_here. }
      clear Htr Hlog Hord Hnogo Hs. revert He Hok Hin Hev. clear.
      main_paths w logLevel; intros He Hok Hin Hev; simplify_eq/=;
        repeat (apply elem_of_cons in Hin as [->|Hin]; try discriminate Hev; try done);
        by apply elem_of_nil in Hin. }
    eapply fails_fast_reachable; try done.
    destruct ev as [X c x| | | | | |]; try done. by destruct c.
Qed.

(** Only the cleanup client fails in [world_cleanup_client_fails]. *)
Lemma cleanup_client_failure_exits_witness :
  Inevitably world_cleanup_client_fails
    (fun s => exit_code s = Some 1%Z ∧
       EvCall (LogError "entrypoint" "connection refused" "unable to create cleanup client") tt
         ∈ st_trace s ∧
       in_order [is_run; is_cancel; is_drain; is_cleanup_client;
                 is_error_log "unable to create cleanup client"] (st_trace s) = true)
    (init (main "INFO")) ∧
  ∀ s, reachable world_cleanup_client_fails (main "INFO") s ->
    (∀ ev, ev ∈ st_trace s -> is_worker ev = false) ∧
    (∀ l1 ev l2, st_trace s = l1 ++ ev :: l2 -> is_cleanup_client ev = true ->
       l2 `prefix_of` [EvCall (LogError "entrypoint" "connection refused"
                                 "unable to create cleanup client") tt;
                       EvExit 1]).
Proof.
  apply (cleanup_client_failure_exits world_cleanup_client_fails "INFO" "connection refused").
  - intros st _. by destruct st.
  - reflexivity.
Defined.

(** * Further properties of [main] *)

(** ** The logger *)

Lemma main_logger_facts w lvl :
  let tr := coord_trace w 0 (main lvl) in
  beforeb is_set_logger is_log false tr = true
  ∧ length (List.filter is_set_logger tr) = 1
  ∧ match tr with ev :: _ => is_set_logger ev | [] => false end = true.
Proof. main_paths w lvl; repeat split. Qed.

Lemma is_set_logger_coord ev : is_set_logger ev = true -> is_coord ev = true.
Proof. by destruct ev. Qed.

Lemma is_log_coord ev : is_log ev = true -> is_coord ev = true.
Proof. by destruct ev. Qed.

(** X1.  In every history the logger is installed first: [logf.SetLogger] is
    the first event, it happens once only, and every [log.Info] and
    [log.Error] record comes after it. *)
Theorem logger_installed_first (w : World) (logLevel : string) (s : State) :
  reachable w (main logLevel) s ->
  Before (fun ev => is_set_logger ev = true) (fun ev => is_log ev = true) (st_trace s) ∧
  length (List.filter is_set_logger (st_trace s)) ≤ 1 ∧
  (∀ ev rest, st_trace s = ev :: rest -> is_set_logger ev = true).
Proof.
  intros Hs. destruct (main_logger_facts w logLevel) as (Hb & Hone & Hhd). cbv zeta in *.
  repeat split.
  - apply (Before_reachable _ _ _ _ _ Hs); [by apply beforeb_sound|apply is_log_coord].
  - destruct (count_reachable w _ s is_set_logger is_set_logger_coord Hs) as [Hle _]. lia.
  - intros ev rest Htr.
    assert (Hc : is_coord ev = true).
    { destruct ev as [| | | | |wk c|wk c]; try done.
      - destruct (work_after_go w _ s wk c Hs [] _ rest Htr eq_refl) as (y & Hy & _).
        by apply elem_of_nil in Hy.
      - destruct (signal_after_go w _ s wk c Hs [] _ rest Htr eq_refl) as (y & Hy & _).
        by apply elem_of_nil in Hy. }
    pose proof (coord_prefix _ _ _ Hs) as Hct. rewrite Htr in Hct. simpl in Hct.
    rewrite Hc in Hct. simpl in Hct. by rewrite Hct in Hhd.
Qed.

(** The staggered run of [world_ok]. *)
Lemma logger_installed_first_witness :
  let s := run_sched world_ok sched_staggered (init (main "DEBUG")) in
  Before (fun ev => is_set_logger ev = true) (fun ev => is_log ev = true) (st_trace s) ∧
  length (List.filter is_set_logger (st_trace s)) ≤ 1 ∧
  (∀ ev rest, st_trace s = ev :: rest -> is_set_logger ev = true).
Proof.
  apply (logger_installed_first world_ok "DEBUG"
           (run_sched world_ok sched_staggered (init (main "DEBUG")))).
  apply run_sched_reachable.
Defined.

(** ** The log level *)

Lemma main_after_logger :
  ∃ k : Prog unit, ∀ lvl, main lvl = bind (setLogger lvl) (fun _ => k).
Proof. eexists. intros lvl. reflexivity. Qed.

Lemma same_but_first_event_step w t s s' :
  same_but_first_event s s' -> st_trace s ≠ [] ->
  match step w t s, step w t s' with
  | Some s1, Some s1' => same_but_first_event s1 s1' ∧ st_trace s1 ≠ []
  | None, None => True
  | _, _ => False
  end.
Proof.
  intros (Hm & Hn & Hc & Hp & Htl & Hlen) Hne.
  assert (Htail : ∀ ev, tail (st_trace s ++ [ev]) = tail (st_trace s' ++ [ev])).
  { intros ev. destruct (st_trace s) as [|a tr], (st_trace s') as [|a' tr']; try done.
    simpl in *. by subst tr'. }
  assert (Hlength : ∀ ev, length (st_trace s ++ [ev]) = length (st_trace s' ++ [ev])).
  { intros ev. by rewrite !length_app, Hlen. }
  assert (Hnonempty : ∀ ev, st_trace s ++ [ev] ≠ []).
  { intros ev. by destruct (st_trace s). }
  unfold step. rewrite <- Hm, <- Hn, <- Hc, <- Hp.
  destruct (st_main s) as [p|]; [|done].
  destruct t as [|i].
  - destruct p as [[]| | | |c k|]; try (destruct (decide (c ∈ st_closed s))); try done;
      unfold same_but_first_event; simpl; auto 10.
  - destruct (st_pool s !! i) as [g|]; [|done].
    destruct (worker_step g) as [[[g' ev] f]|]; [|done].
    unfold same_but_first_event; simpl; auto 10.
Qed.

Lemma same_but_first_event_run w sched s s' :
  same_but_first_event s s' -> st_trace s ≠ [] ->
  same_but_first_event (run_sched w sched s) (run_sched w sched s').
Proof.
  revert s s'. induction sched as [|t sched IH]; intros s s' HR Hne; [done|]. simpl.
  pose proof (same_but_first_event_step w t s s' HR Hne) as Hstep.
  destruct (step w t s) as [s1|], (step w t s') as [s1'|]; try done.
  - destruct Hstep. by apply IH.
  - by apply IH.
Qed.

(** X2.  The value of the log-level flag selects the logger and nothing else:
    on the same schedule and in the same world, two runs of [main] with
    different flag values have the same exit code, the same goroutines and
    signals, and the same history from the second event on. *)
Theorem log_level_only_selects_logger (w : World) (sched : list Tid)
        (logLevel logLevel' : string) :
  let s := run_sched w sched (init (main logLevel)) in
  let s' := run_sched w sched (init (main logLevel')) in
  exit_code s = exit_code s' ∧ tail (st_trace s) = tail (st_trace s') ∧
  st_pool s = st_pool s' ∧ st_closed s = st_closed s'.
Proof.
  cbv zeta. destruct main_after_logger as [k Hk]. rewrite !Hk.
  destruct (setLogger_is_call logLevel) as [l ->].
  destruct (setLogger_is_call logLevel') as [l' ->].
  induction sched as [|t sched IH]; [done|].
  destruct t as [|i]; simpl; [|exact IH].
  destruct (same_but_first_event_run w sched
              {| st_main := Running k; st_next := 0; st_closed := ∅; st_pool := [];
                 st_trace := [EvCall (LogfSetLogger l) tt] |}
              {| st_main := Running k; st_next := 0; st_closed := ∅; st_pool := [];
                 st_trace := [EvCall (LogfSetLogger l') tt] |})
    as (Hm & _ & Hc & Hp & Htl & _); [by repeat split|done|].
  unfold exit_code. by rewrite Hm.
Qed.

(** ** Errors and their records *)

Lemma records_follow_spec prev tr :
  records_follow prev tr ->
  (∀ l1 x y l2, tr = l1 ++ x :: y :: l2 -> ∀ e, ev_error x = Some e ->
     ∃ msg, error_text x = Some msg ∧ error_record y = Some (e, msg))
  ∧ (∀ l1 y l2 e msg, tr = l1 ++ y :: l2 -> error_record y = Some (e, msg) ->
       ∃ x, last (option_list prev ++ l1) = Some x ∧ ev_error x = Some e
            ∧ error_text x = Some msg).
Proof.
  revert prev. induction tr as [|z tr IH]; intros prev H.
  - split; intros [|??]; intros; discriminate.
  - destruct H as (Hrec & Hcall & H). destruct (IH _ H) as [IH1 IH2]. split.
    + intros [|a l1] x y l2 Heq e He; simplify_eq/=.
      * destruct H as (_ & Hc & _). by eapply Hc.
      * by eapply IH1.
    + intros [|a l1] y l2 e msg Heq Hy; simplify_eq/=.
      * destruct (Hrec _ _ Hy) as (x & -> & ? & ?). exists x. by rewrite app_nil_r.
      * destruct (IH2 l1 y l2 e msg eq_refl Hy) as (x & Hlast & ? & ?).
        exists x. split; [|done]. simpl in Hlast.
        destruct prev; simpl; [|done]. by destruct l1.
Qed.

Lemma main_records_follow w lvl : records_follow None (coord_trace w 0 (main lvl)).
Proof.
  main_paths w lvl; repeat split; intros; simplify_eq/=; eauto.
Qed.

(** X3.  [main] neither swallows an error nor logs one that did not occur:
    among the events of the main goroutine, every call that returned an error
    is followed at once by a [log.Error] record with that error and the
    call's message, and every [log.Error] record follows at once the call
    that returned its error. *)
Theorem errors_are_recorded (w : World) (logLevel : string) (s : State) :
  reachable w (main logLevel) s ->
  (∀ l1 x y l2 e, List.filter is_coord (st_trace s) = l1 ++ x :: y :: l2 ->
     ev_error x = Some e ->
     ∃ msg, error_text x = Some msg ∧ error_record y = Some (e, msg)) ∧
  (∀ l1 y l2 e msg, List.filter is_coord (st_trace s) = l1 ++ y :: l2 ->
     error_record y = Some (e, msg) ->
     ∃ x, last l1 = Some x ∧ ev_error x = Some e ∧ error_text x = Some msg).
Proof.
  intros Hs. pose proof (coord_prefix _ _ _ Hs) as Hct.
  destruct (records_follow_spec _ _ (main_records_follow w logLevel)) as [H1 H2].
  split.
  - intros l1 x y l2 e Heq He. apply (H1 l1 x y (l2 ++ coord_rest w s)); [|done].
    by rewrite Hct, Heq, <- app_assoc.
  - intros l1 y l2 e msg Heq Hy.
    apply (H2 l1 y (l2 ++ coord_rest w s) e msg); [|done].
    by rewrite Hct, Heq, <- app_assoc.
Qed.

(** The run of [world_run_fails] in which only the main goroutine moves. *)
Lemma errors_are_recorded_witness :
  let s := run_sched world_run_fails (replicate 40 TMain) (init (main "INFO")) in
  (∀ l1 x y l2 e, List.filter is_coord (st_trace s) = l1 ++ x :: y :: l2 ->
     ev_error x = Some e ->
     ∃ msg, error_text x = Some msg ∧ error_record y = Some (e, msg)) ∧
  (∀ l1 y l2 e msg, List.filter is_coord (st_trace s) = l1 ++ y :: l2 ->
     error_record y = Some (e, msg) ->
     ∃ x, last l1 = Some x ∧ ev_error x = Some e ∧ error_text x = Some msg).
Proof.
  apply (errors_are_recorded world_run_fails "INFO"
           (run_sched world_run_fails (replicate 40 TMain) (init (main "INFO")))).
  apply run_sched_reachable.
Defined.

Lemma main_fatal_records w lvl :
  existsb is_fatal_record (coord_trace w 0 (main lvl)) = negb (clean w).
Proof. main_paths w lvl; reflexivity. Qed.

(** X4.  The exit code can be read off the log: on every schedule the process
    exits, and it exits with 1 exactly when the history holds a [log.Error]
    record other than that of the policy client. *)
Theorem exit_code_told_by_records (w : World) (logLevel : string) :
  Inevitably w
    (fun s => exit_code s = Some 1%Z <-> existsb is_fatal_record (st_trace s) = true)
    (init (main logLevel)).
Proof.
  apply main_inevitably. intros s code Hs Hm.
  destruct (main_exited _ _ _ _ Hs Hm) as (pre & _ & _ & Hcode & _).
  pose proof (main_fatal_records w logLevel) as Hrec.
  rewrite <- (exited_coord _ _ _ _ Hs Hm), existsb_filter_coord in Hrec
    by (intros ev; by destruct ev).
  unfold exit_code. rewrite Hm, Hrec, Hcode. by destruct (clean w).
Qed.

(** ** No operation is repeated *)

Lemma ops_of_app l l' : ops_of (l ++ l') = ops_of l ++ ops_of l'.
Proof.
  induction l as [|ev l IH]; [done|]. simpl. destruct (op_of ev); simpl; by rewrite IH.
Qed.

Lemma ops_of_filter_coord tr : ops_of (List.filter is_coord tr) = ops_of tr.
Proof.
  induction tr as [|ev tr IH]; [done|]. simpl.
  destruct (is_coord ev) eqn:Hc; simpl; rewrite IH; [done|]. by destruct ev.
Qed.

Lemma op_eqb_refl o : op_eqb o o = true.
Proof.
  destruct o; simpl; try done.
  - apply String.eqb_refl.
  - apply String.eqb_refl.
  - apply Nat.eqb_refl.
  - by apply bool_decide_eq_true.
  - apply Nat.eqb_refl.
Qed.

Lemma nodupb_sound l : nodupb l = true -> NoDup l.
Proof.
  induction l as [|o l IH]; intros H; [constructor|].
  simpl in H. apply andb_prop in H as [Ho Hl]. constructor; [|by apply IH].
  intros Hin. apply negb_true_iff in Ho.
  assert (existsb (op_eqb o) l = true) as Hex; [|congruence].
  apply existsb_exists. exists o. split; [by apply list_elem_of_In|apply op_eqb_refl].
Qed.

Lemma main_ops_once w lvl : nodupb (ops_of (coord_trace w 0 (main lvl))) = true.
Proof. main_paths w lvl; reflexivity. Qed.

(** X5.  [main] repeats nothing: in every history each of its operations
    other than [mgr.GetConfig()] occurs at most once, among them
    [signals.SetupSignalHandler], [mgr.Start], [wmCancel], [time.Sleep], the
    start of each cleanup worker, the receive on each channel, [os.Exit] and
    each log line. *)
Theorem no_operation_twice (w : World) (logLevel : string) (s : State) :
  reachable w (main logLevel) s ->
  NoDup (ops_of (st_trace s)).
Proof.
  intros Hs. pose proof (nodupb_sound _ (main_ops_once w logLevel)) as Hnd.
  rewrite (coord_prefix _ _ _ Hs), ops_of_app, ops_of_filter_coord in Hnd.
  by apply NoDup_app in Hnd as [? _].
Qed.

(** The staggered run of [world_ok]. *)
Lemma no_operation_twice_witness :
  NoDup (ops_of (st_trace (run_sched world_ok sched_staggered (init (main "INFO"))))).
Proof.
  apply (no_operation_twice world_ok "INFO"
           (run_sched world_ok sched_staggered (init (main "INFO")))).
  apply run_sched_reachable.
Defined.

(** ** What is handed to whom *)

Lemma main_wired w lvl : Forall (wired w) (coord_trace w 0 (main lvl)).
Proof.
  main_paths w lvl;
    repeat (apply Forall_cons; split;
            [unfold wired; simpl; repeat split; intros; by simplify_eq|]);
    apply Forall_nil_2.
Qed.

(** X6.  In every history each registration is handed the policy client
    [backend.NewClient] returned, with or without error, every use of the
    manager is of the one [manager.New] returned, [watch.New] and
    [k8sCli.New] are given the configuration [mgr.GetConfig()] returned, and
    each cleanup worker is handed the client [k8sCli.New] returned and its
    own channel. *)
Theorem handles_are_wired (w : World) (logLevel : string) (s : State) (ev : Event) :
  reachable w (main logLevel) s -> ev ∈ st_trace s ->
  (∀ client, client_arg ev = Some client -> client = fst (w_newClient w))
  ∧ (∀ mgr, manager_arg ev = Some mgr -> mgr = fst (w_managerNew w))
  ∧ (∀ cfg, config_arg ev = Some cfg -> cfg = w_mgrConfig w)
  ∧ (∀ wk cli c, ev = EvGo wk cli c -> cli = fst (w_k8sCliNew w) ∧ c = worker_chan wk).
Proof.
  intros Hs Hin. destruct (is_coord ev) eqn:Hc.
  - pose proof (main_wired w logLevel) as Hw. rewrite Forall_forall in Hw.
    apply Hw. by eapply coord_event_in.
  - destruct ev; try discriminate Hc; repeat split; intros; discriminate.
Qed.

(** The start of the first worker in the staggered run of [world_ok]. *)
Lemma handles_are_wired_witness :
  let ev := EvGo RemoveAllConfigFinalizers (K8sClientAt 11) 0 in
  (∀ client, client_arg ev = Some client -> client = fst (w_newClient world_ok))
  ∧ (∀ mgr, manager_arg ev = Some mgr -> mgr = fst (w_managerNew world_ok))
  ∧ (∀ cfg, config_arg ev = Some cfg -> cfg = w_mgrConfig world_ok)
  ∧ (∀ wk cli c, ev = EvGo wk cli c ->
       cli = fst (w_k8sCliNew world_ok) ∧ c = worker_chan wk).
Proof.
  apply (handles_are_wired world_ok "INFO"
           (run_sched world_ok sched_staggered (init (main "INFO")))).
  - apply run_sched_reachable.
  - vm_compute. do 32 apply list_elem_of_further. apply list_elem_of_here.
Defined.

(** ** The end of cleanup *)

Lemma both_received_coord l : both_received (List.filter is_coord l) = both_received l.
Proof.
  unfold both_received.
  by rewrite !existsb_filter_coord by (intros ev; by destruct ev).
Qed.

Lemma is_info_coord msg ev : is_info msg ev = true -> is_coord ev = true.
Proof. by destruct ev. Qed.

Lemma main_removed_facts w lvl :
  each_prefix both_received (is_info "finalizers removed") []
    (coord_trace w 0 (main lvl)) = true.
Proof. main_paths w lvl; reflexivity. Qed.

(** Within a history, a worker whose channel the main goroutine has received
    on has fired its signal before. *)
Lemma received_observed w lvl s l1 l2 :
  reachable w (main lvl) s -> st_trace s = l1 ++ l2 ->
  both_received l1 = true -> ∀ wk, observed wk l1.
Proof.
  intros Hs Htr Hb wk.
  assert (Hc : EvRecv (worker_chan wk) ∈ l1).
  { apply andb_prop in Hb as [H0 H1].
    destruct wk; [apply existsb_elem in H0 as (ev & Hev & ->%is_recv_eq)
                 |apply existsb_elem in H1 as (ev & Hev & ->%is_recv_eq)]; done. }
  apply list_elem_of_split in Hc as (a & l3 & ->).
  rewrite <- app_assoc in Htr. simpl in Htr.
  destruct (recv_observed _ _ _ _ _ _ Hs Htr) as (wk' & cli & a' & b & -> & Hstart).
  assert (wk' = wk) as ->.
  { assert (Hg : EvGo wk' cli (worker_chan wk) ∈ coord_trace w 0 (main lvl)).
    { apply (coord_event_in _ _ _ _ Hs); [|done].
      rewrite Htr, <- !app_assoc. apply elem_of_app. by left. }
    destruct (main_cleanup_facts w lvl) as [_ Hgo]. cbv zeta in Hgo.
    apply (forallb_elem _ _ _ Hgo) in Hg. simpl in Hg. apply Nat.eqb_eq in Hg.
    by destruct wk, wk'. }
  exists (worker_chan wk), a', b, l3. by rewrite <- app_assoc.
Qed.

(** X7.  The record "finalizers removed" is truthful: wherever it stands in a
    history, each cleanup worker's completion signal has fired and has been
    received by the main goroutine before it. *)
Theorem finalizers_removed_is_truthful (w : World) (logLevel : string) (s : State)
    (l1 l2 : list Event) (ev : Event) :
  reachable w (main logLevel) s ->
  st_trace s = l1 ++ ev :: l2 ->
  info_record ev = Some "finalizers removed" ->
  ∀ wk, observed wk l1.
Proof.
  intros Hs Htr Hev. apply (received_observed w logLevel s l1 (ev :: l2)); [done..|].
  apply (each_prefix_reachable w (main logLevel) s both_received
           (is_info "finalizers removed") l1 ev l2); try done.
  - apply both_received_coord.
  - apply is_info_coord.
  - apply main_removed_facts.
  - unfold is_info. by rewrite Hev.
Qed.

(** The staggered run of [world_ok], up to the record. *)
Lemma finalizers_removed_is_truthful_witness :
  let s := run_sched world_ok sched_staggered (init (main "INFO")) in
  observed RemoveAllConfigFinalizers (removelast (removelast (st_trace s)))
  ∧ observed RemoveAllFinalizers (removelast (removelast (st_trace s))).
Proof.
  split;
    apply (finalizers_removed_is_truthful world_ok "INFO"
             (run_sched world_ok sched_staggered (init (main "INFO")))
             (removelast (removelast
                (st_trace (run_sched world_ok sched_staggered (init (main "INFO"))))))
             [EvExit 0] (EvCall (LogInfo "entrypoint" "finalizers removed") tt));
    first [apply run_sched_reachable | vm_compute; reflexivity].
Defined.

(** ** Progress records *)

Lemma infos_of_app l l' : infos_of (l ++ l') = infos_of l ++ infos_of l'.
Proof.
  induction l as [|ev l IH]; [done|]. simpl. destruct (info_record ev); simpl; by rewrite IH.
Qed.

Lemma infos_of_filter_coord tr : infos_of (List.filter is_coord tr) = infos_of tr.
Proof.
  induction tr as [|ev tr IH]; [done|]. simpl.
  destruct (is_coord ev) eqn:Hc; simpl; rewrite IH; [done|]. by destruct ev.
Qed.

Lemma main_infos_facts w lvl :
  let tr := coord_trace w 0 (main lvl) in
  infos_of tr `prefix_of` main_infos
  ∧ (if setup_ok w && nil_error (snd (w_k8sCliNew w))
     then infos_of tr = main_infos else infos_of tr ≠ main_infos).
Proof.
  main_paths w lvl; (split; [unfold main_infos; eexists; reflexivity|done]).
Qed.

(** X8.  The [log.Info] records of a history are, in order and without
    repetition, an initial part of the eleven progress lines of [main]; and
    when the process has exited, all eleven are there exactly when no fatal
    setup step failed and the cleanup client was built. *)
Theorem progress_records_in_order (w : World) (logLevel : string) (s : State) :
  reachable w (main logLevel) s ->
  infos_of (st_trace s) `prefix_of` main_infos
  ∧ (∀ code, st_main s = Exited code ->
       (infos_of (st_trace s) = main_infos
        <-> setup_succeeds w ∧ snd (w_k8sCliNew w) = None)).
Proof.
  intros Hs. destruct (main_infos_facts w logLevel) as [Hpre Hall]. cbv zeta in *. split.
  - rewrite (coord_prefix _ _ _ Hs), infos_of_app, infos_of_filter_coord in Hpre.
    destruct Hpre as [k Hk]. exists (infos_of (coord_rest w s) ++ k).
    by rewrite Hk, <- app_assoc.
  - intros code Hm.
    rewrite <- (exited_coord _ _ _ _ Hs Hm), infos_of_filter_coord in Hall.
    rewrite <- setup_ok_spec, <- nil_error_spec.
    destruct (setup_ok w), (nil_error (snd (w_k8sCliNew w))); simpl in Hall;
      split; try done; intros [??]; done.
Qed.

(** The run of [world_cleanup_client_fails]: ten of the eleven lines. *)
Lemma progress_records_in_order_witness :
  let s := run_sched world_cleanup_client_fails sched_staggered (init (main "INFO")) in
  infos_of (st_trace s) `prefix_of` main_infos
  ∧ (∀ code, st_main s = Exited code ->
       (infos_of (st_trace s) = main_infos
        <-> setup_succeeds world_cleanup_client_fails
            ∧ snd (w_k8sCliNew world_cleanup_client_fails) = None)).
Proof.
  apply (progress_records_in_order world_cleanup_client_fails "INFO"
           (run_sched world_cleanup_client_fails sched_staggered (init (main "INFO")))).
  apply run_sched_reachable.
Defined.

(** ** The drain delay *)

Lemma slept_filter_coord tr : slept (List.filter is_coord tr) = slept tr.
Proof.
  induction tr as [|ev tr IH]; [done|].
  destruct ev as [X c x| | | | | |]; simpl; try done. destruct c; simpl; by rewrite ?IH.
Qed.

Lemma main_slept w lvl :
  slept (coord_trace w 0 (main lvl)) = (if setup_ok w then 5 * time_Second else 0)%Z.
Proof. main_paths w lvl; reflexivity. Qed.

(** X9.  On every schedule the process exits, and by then the main goroutine
    has slept 5 s in all if no fatal setup step failed, whatever [mgr.Start]
    and [k8sCli.New] returned, and not at all otherwise. *)
Theorem drain_delay_total (w : World) (logLevel : string) :
  Inevitably w
    (fun s => slept (st_trace s) = (if setup_ok w then 5 * time_Second else 0)%Z)
    (init (main logLevel)).
Proof.
  apply main_inevitably. intros s code Hs Hm.
  by rewrite <- slept_filter_coord, (exited_coord _ _ _ _ Hs Hm), main_slept.
Qed.

(** ** Starting and awaiting the workers *)

Lemma main_await_facts w lvl :
  let tr := coord_trace w 0 (main lvl) in
  beforeb (is_go_of RemoveAllConfigFinalizers) is_any_recv false tr = true
  ∧ beforeb (is_go_of RemoveAllFinalizers) is_any_recv false tr = true
  ∧ beforeb (is_recv syncCleaned) (is_recv templatesCleaned) false tr = true.
Proof. main_paths w lvl; repeat split. Qed.

(** X10.  The two cleanup workers run side by side: in every history both
    have been started before the main goroutine receives on any channel, and
    it receives on [syncCleaned] before [templatesCleaned], in whatever order
    the workers finish. *)
Theorem workers_started_before_waiting (w : World) (logLevel : string) (s : State) :
  reachable w (main logLevel) s ->
  (∀ wk, Before (fun ev => is_go_of wk ev = true) (fun ev => is_any_recv ev = true)
           (st_trace s))
  ∧ Before (fun ev => is_recv syncCleaned ev = true)
           (fun ev => is_recv templatesCleaned ev = true) (st_trace s).
Proof.
  intros Hs. destruct (main_await_facts w logLevel) as (H0 & H1 & H2). cbv zeta in *.
  split; [intros wk|].
  - apply (Before_reachable _ _ _ _ _ Hs); [|intros x; by destruct x].
    apply beforeb_sound. by destruct wk.
  - apply (Before_reachable _ _ _ _ _ Hs); [|intros x; by destruct x].
    by apply beforeb_sound.
Qed.

(** The staggered run of [world_ok], in which the second worker finishes
    first. *)
Lemma workers_started_before_waiting_witness :
  let s := run_sched world_ok sched_staggered (init (main "INFO")) in
  (∀ wk, Before (fun ev => is_go_of wk ev = true) (fun ev => is_any_recv ev = true)
           (st_trace s))
  ∧ Before (fun ev => is_recv syncCleaned ev = true)
           (fun ev => is_recv templatesCleaned ev = true) (st_trace s).
Proof.
  apply (workers_started_before_waiting world_ok "INFO"
           (run_sched world_ok sched_staggered (init (main "INFO")))).
  apply run_sched_reachable.
Defined.
